(** * Han-character coverage checker: model and properties

    A shallow embedding of [sanbaiqian_coverage.py] and of the questions of
    [run_coverage_wizard.py].  Python strings are
    sequences of Unicode code points, so a character is its code point (a
    [Z]) and a [str] is a list of them.  Sets of characters are [gset Z];
    dictionaries whose insertion order is observable ([Counter], the
    label -> inventory mapping) are association lists in insertion order.
    Floats are the kernel's binary64 numbers. *)

From Stdlib Require Import ZArith PrimFloat SpecFloat FloatOps.
From Stdlib Require Import DecimalN HexadecimalN.
From stdpp Require Import base list sorting gmap strings pretty.

(** ** The parts of the Python runtime the program calls *)

Module Py.

Abbreviation char := Z (only parsing).
Abbreviation str := (list Z) (only parsing).

Definition LF : char := 0x0A%Z.
Definition CR : char := 0x0D%Z.

(** [str.isspace] on one character (CPython's [_PyUnicode_IsWhitespace]):
    bidirectional type WS, B or S, or category Zs. *)
Definition isspace (c : char) : bool :=
  ((0x09 <=? c) && (c <=? 0x0D) || (0x1C <=? c) && (c <=? 0x20)
   || (c =? 0x85) || (c =? 0xA0) || (c =? 0x1680)
   || (0x2000 <=? c) && (c <=? 0x200A)
   || (c =? 0x2028) || (c =? 0x2029) || (c =? 0x202F) || (c =? 0x205F)
   || (c =? 0x3000))%Z.

(** The line boundaries of [str.splitlines] (CPython's
    [_PyUnicode_IsLinebreak]): LF, VT, FF, CR, FS, GS, RS, NEL, LS, PS. *)
Definition is_linebreak (c : char) : bool :=
  ((0x0A <=? c) && (c <=? 0x0D) || (0x1C <=? c) && (c <=? 0x1E)
   || (c =? 0x85) || (c =? 0x2028) || (c =? 0x2029))%Z.

Fixpoint lstrip_by (p : char → bool) (s : str) : str :=
  match s with
  | [] => []
  | c :: rest => if p c then lstrip_by p rest else s
  end.

Definition rstrip_by (p : char → bool) (s : str) : str :=
  rev (lstrip_by p (rev s)).

(** [s.strip()] with no argument: whitespace removed at both ends. *)
Definition strip (s : str) : str := rstrip_by isspace (lstrip_by isspace s).

(** [s.rstrip(chars)]: trailing characters that occur in [chars] removed. *)
Definition rstrip (chars : str) (s : str) : str :=
  rstrip_by (λ c, bool_decide (c ∈ chars)) s.

(** [s.splitlines()] (keepends false).  [cur] holds the current line's
    characters, latest first.  A boundary ends the line; CR immediately
    followed by LF is one boundary; what is left at the end of the text
    is a line only when it is not empty. *)
Fixpoint splitlines_from (cur : str) (s : str) : list str :=
  match s with
  | [] => match cur with [] => [] | _ => [rev cur] end
  | c :: rest =>
      if is_linebreak c then
        rev cur ::
          (if bool_decide (c = CR) then
             match rest with
             | c' :: rest' =>
                 if bool_decide (c' = LF) then splitlines_from [] rest'
                 else splitlines_from [] rest
             | [] => splitlines_from [] rest
             end
           else splitlines_from [] rest)
      else splitlines_from (c :: cur) rest
  end.

Definition splitlines (s : str) : list str := splitlines_from [] s.

(** [enumerate(xs, start)]. *)
Fixpoint enumerate {A} (start : nat) (xs : list A) : list (nat * A) :=
  match xs with
  | [] => []
  | x :: rest => (start, x) :: enumerate (S start) rest
  end.

(** [a / b] on non-negative ints with [b > 0]: the quotient correctly
    rounded to binary64 (round to nearest, ties to even), whatever the
    size of the operands. *)
Definition int_truediv (a : N) (b : positive) : float :=
  match a with
  | N0 => PrimFloat.zero
  | Npos x =>
      SF2Prim (SFdiv 53 1024 (S754_finite false x 0) (S754_finite false b 0))
  end.

(** [sorted(xs, key=key)] and [sorted(xs, key=key, reverse=True)]: both
    are stable, elements with equal keys keep their order. [lt] is the
    strict order on keys. *)
Section Sorted.
Context {A K : Type} (lt : K → K → bool) (key : A → K).

Fixpoint insert_asc (x : A) (l : list A) : list A :=
  match l with
  | [] => [x]
  | y :: rest =>
      if lt (key y) (key x) then y :: insert_asc x rest else x :: l
  end.

Fixpoint insert_desc (x : A) (l : list A) : list A :=
  match l with
  | [] => [x]
  | y :: rest =>
      if lt (key x) (key y) then y :: insert_desc x rest else x :: l
  end.

Definition sorted (l : list A) : list A := foldr insert_asc [] l.
Definition sorted_reverse (l : list A) : list A := foldr insert_desc [] l.
End Sorted.

(** Strict order on the key tuples [(int, int)]: lexicographic. *)
Definition lt_pair (a b : Z * Z) : bool :=
  ((a.1 <? b.1) || (a.1 =? b.1) && (a.2 <? b.2))%Z.

(** [collections.Counter]: a dict from element to count; iteration order
    is the order in which the elements were first counted. *)
Definition Counter := list (Z * nat).

Fixpoint counter_incr (ch : char) (c : Counter) : Counter :=
  match c with
  | [] => [(ch, 1)]
  | (k, v) :: rest =>
      if bool_decide (k = ch) then (k, S v) :: rest
      else (k, v) :: counter_incr ch rest
  end.

(** [Counter(iterable)]: the elements are counted left to right. *)
Definition counter_of (l : str) : Counter :=
  fold_left (λ c ch, counter_incr ch c) l [].

(** [c[ch]]: the count, 0 for a missing element. *)
Fixpoint counter_get (c : Counter) (ch : char) : nat :=
  match c with
  | [] => 0
  | (k, v) :: rest => if bool_decide (k = ch) then v else counter_get rest ch
  end.

Definition counter_keys (c : Counter) : str := c.*1.
Definition counter_total (c : Counter) : nat := sum_list c.*2.

(** [c.most_common(n)] is [heapq.nlargest(n, c.items(), key=itemgetter(1))],
    which is [sorted(c.items(), key=itemgetter(1), reverse=True)[:n]] for a
    positive [n] and empty otherwise. *)
Definition most_common (n : Z) (c : Counter) : list (Z * nat) :=
  take (Z.to_nat n) (sorted_reverse Nat.ltb snd c).

(** [xs[:n]]: a negative [n] counts from the end. *)
Definition slice_to {A} (n : Z) (xs : list A) : list A :=
  if (0 <=? n)%Z then take (Z.to_nat n) xs
  else take (length xs - Z.to_nat (- n)) xs.

(** The characters of a decimal numeral, most significant digit first. *)
Fixpoint uint_chars (u : Decimal.uint) : str :=
  match u with
  | Decimal.Nil => []
  | Decimal.D0 u => 0x30%Z :: uint_chars u
  | Decimal.D1 u => 0x31%Z :: uint_chars u
  | Decimal.D2 u => 0x32%Z :: uint_chars u
  | Decimal.D3 u => 0x33%Z :: uint_chars u
  | Decimal.D4 u => 0x34%Z :: uint_chars u
  | Decimal.D5 u => 0x35%Z :: uint_chars u
  | Decimal.D6 u => 0x36%Z :: uint_chars u
  | Decimal.D7 u => 0x37%Z :: uint_chars u
  | Decimal.D8 u => 0x38%Z :: uint_chars u
  | Decimal.D9 u => 0x39%Z :: uint_chars u
  end.

(** [str(n)] for an int that is not negative. *)
Definition decimal (n : N) : str := uint_chars (N.to_uint n).

(** The characters of a hexadecimal numeral, in upper case. *)
Fixpoint hex_uint_chars (u : Hexadecimal.uint) : str :=
  match u with
  | Hexadecimal.Nil => []
  | Hexadecimal.D0 u => 0x30%Z :: hex_uint_chars u
  | Hexadecimal.D1 u => 0x31%Z :: hex_uint_chars u
  | Hexadecimal.D2 u => 0x32%Z :: hex_uint_chars u
  | Hexadecimal.D3 u => 0x33%Z :: hex_uint_chars u
  | Hexadecimal.D4 u => 0x34%Z :: hex_uint_chars u
  | Hexadecimal.D5 u => 0x35%Z :: hex_uint_chars u
  | Hexadecimal.D6 u => 0x36%Z :: hex_uint_chars u
  | Hexadecimal.D7 u => 0x37%Z :: hex_uint_chars u
  | Hexadecimal.D8 u => 0x38%Z :: hex_uint_chars u
  | Hexadecimal.D9 u => 0x39%Z :: hex_uint_chars u
  | Hexadecimal.Da u => 0x41%Z :: hex_uint_chars u
  | Hexadecimal.Db u => 0x42%Z :: hex_uint_chars u
  | Hexadecimal.Dc u => 0x43%Z :: hex_uint_chars u
  | Hexadecimal.Dd u => 0x44%Z :: hex_uint_chars u
  | Hexadecimal.De u => 0x45%Z :: hex_uint_chars u
  | Hexadecimal.Df u => 0x46%Z :: hex_uint_chars u
  end.

(** [format(n, "X")] for an int that is not negative. *)
Definition hex_upper (n : N) : str := hex_uint_chars (N.to_hex_uint n).

(** Zero padding of a format spec such as [04X], on a numeral without
    sign: zeros in front, up to the width. *)
Definition zero_pad (width : nat) (s : str) : str :=
  replicate (width - length s) 0x30%Z ++ s.

Definition COMMA : char := 0x2C%Z.

(** The [,] option of a format spec, on the digits of a numeral taken
    from the last to the first: a comma after every third digit that has
    a digit after it. *)
Fixpoint group_thousands_rev (ds : str) : str :=
  match ds with
  | a :: b :: c :: rest =>
      match rest with
      | [] => ds
      | _ :: _ => a :: b :: c :: COMMA :: group_thousands_rev rest
      end
  | _ => ds
  end.

(** [format(n, ",")] for an int: the sign, then the digits in groups of
    three. *)
Definition format_thousands (n : Z) : str :=
  (if (n <? 0)%Z then [0x2D%Z] else [])
  ++ rev (group_thousands_rev (rev (decimal (Z.abs_N n)))).

End Py.
Import Py.

(** ** Unicode range helpers *)

Definition HAN_RANGES : list (Z * Z) :=
  [ (0x3400, 0x4DBF);    (* CJK Unified Ideographs Extension A *)
    (0x4E00, 0x9FFF);    (* CJK Unified Ideographs *)
    (0xF900, 0xFAFF);    (* CJK Compatibility Ideographs *)
    (0x20000, 0x2A6DF);  (* Extension B *)
    (0x2A700, 0x2B73F);  (* Extension C *)
    (0x2B740, 0x2B81F);  (* Extension D *)
    (0x2B820, 0x2CEAF);  (* Extension E *)
    (0x2CEB0, 0x2EBEF);  (* Extension F *)
    (0x30000, 0x3134F);  (* Extension G *)
    (0x31350, 0x323AF);  (* Extension H *)
    (0x2EBF0, 0x2EE5D);  (* Extension I *)
    (0x323B0, 0x33479)   (* Extension J *)
  ]%Z.

(** The loop of [is_han]: the first range that holds [cp] returns. *)
Fixpoint han_scan (cp : Z) (ranges : list (Z * Z)) : bool :=
  match ranges with
  | [] => false
  | (start, end_) :: rest =>
      if ((start <=? cp) && (cp <=? end_))%Z then true else han_scan cp rest
  end.

(** [is_han] on one character, as every call of the program gives it (a
    string iterated over yields strings of length one). *)
Definition is_han_cp (cp : char) : bool := han_scan cp HAN_RANGES.

(** [is_han(ch)].  [None] is the [TypeError] that [ord] raises on a string
    of more than one character. *)
Definition is_han (ch : str) : option bool :=
  match ch with
  | [] => Some false
  | [c] => Some (is_han_cp c)
  | _ => None
  end.

(** What the specification asks of the range table: each interval starts
    after the one before it ends. *)
Definition ascending_ranges (rs : list (Z * Z)) : Prop :=
  ∀ i a b, rs !! i = Some a → rs !! S i = Some b → (a.2 < b.1)%Z.

Definition in_range (cp : Z) (r : Z * Z) : Prop := (r.1 ≤ cp ≤ r.2)%Z.

(** ** Core logic *)

(** A [pathlib.Path] as the program reads it: its [stem] and [str(p)]. *)
Record Path := { stem : string; path_str : string }.

(** The label -> inventory dict, in insertion order. *)
Definition Inventories := list (string * gset Z).

(** [label in inventories]. *)
Definition dict_contains (d : Inventories) (label : string) : bool :=
  bool_decide (label ∈ d.*1).

(** [inventories[label] = inv]: a present key keeps its place, a new one
    goes last. *)
Fixpoint dict_set (d : Inventories) (label : string) (inv : gset Z)
    : Inventories :=
  match d with
  | [] => [(label, inv)]
  | (k, v) :: rest =>
      if bool_decide (k = label) then (k, inv) :: rest
      else (k, v) :: dict_set rest label inv
  end.

(** [load_inventory(path)], given [data], the text read from the file. *)
Definition load_inventory (data : str) : gset Z :=
  list_to_set (filter (λ ch, is_han_cp ch = true) data).

(** [p.stem or str(p)]: the stem unless it is empty. *)
Definition stem_or_str (p : Path) : string :=
  if bool_decide (stem p = "") then path_str p else stem p.

(** [f"{base}-{n}"]. *)
Definition suffixed (base : string) (n : nat) : string :=
  base +:+ "-" +:+ pretty n.

(** The [while label in inventories] loop of [load_inventories]; [fuel]
    bounds the number of times its body runs. *)
Fixpoint label_loop (fuel : nat) (inventories : Inventories)
    (base label : string) (n : nat) : option string :=
  if dict_contains inventories label then
    match fuel with
    | 0 => None
    | S fuel' => label_loop fuel' inventories base (suffixed base n) (S n)
    end
  else Some label.

(** The [for p in paths] loop of [load_inventories].  [read_text p] is the
    file's text, [None] when reading it raises.  Each label in the dict is
    tried at most once, so the dict's size is fuel enough for the inner
    loop. *)
Fixpoint load_loop (read_text : Path → option str) (paths : list Path)
    (inventories : Inventories) : option Inventories :=
  match paths with
  | [] => Some inventories
  | p :: rest =>
      let label := stem_or_str p in
      let base := label in
      label ← label_loop (length inventories) inventories base label 2;
      data ← read_text p;
      load_loop read_text rest (dict_set inventories label (load_inventory data))
  end.

Definition load_inventories (read_text : Path → option str)
    (paths : list Path) : option Inventories :=
  load_loop read_text paths [].

Fixpoint iter_text_chars (text : str) (han_only : bool) : str :=
  match text with
  | [] => []
  | ch :: rest =>
      if han_only && negb (is_han_cp ch) then iter_text_chars rest han_only
      else if bool_decide (strip [ch] = []) then iter_text_chars rest han_only
      else ch :: iter_text_chars rest han_only
  end.

Record CoverageReport := {
  total_chars : nat;
  known_chars : nat;
  unknown_chars : nat;
  coverage_pct : float;
  known_freq : Counter;
  unknown_freq : Counter
}.

Definition coverage_report (text : str) (inventory : gset Z)
    (han_only : bool) : CoverageReport :=
  let chars := iter_text_chars text han_only in
  let total := length chars in
  let known := filter (λ ch, ch ∈ inventory) chars in
  let unknown := filter (λ ch, ch ∉ inventory) chars in
  let known_count := length known in
  let unknown_count := length unknown in
  let coverage :=
    match total with
    | S _ => (int_truediv (N.of_nat known_count) (Pos.of_nat total) * 100)%float
    | 0 => 100%float
    end in
  {| total_chars := total;
     known_chars := known_count;
     unknown_chars := unknown_count;
     coverage_pct := coverage;
     known_freq := counter_of known;
     unknown_freq := counter_of unknown |}.

(** A per-line tuple [(line_no, total, known, coverage_pct, line_text)]. *)
Definition LineRecord : Type := nat * nat * nat * float * list Z.

Definition line_no (r : LineRecord) : nat := r.1.1.1.1.
Definition line_total (r : LineRecord) : nat := r.1.1.1.2.
Definition line_known (r : LineRecord) : nat := r.1.1.2.
Definition line_pct (r : LineRecord) : float := r.1.2.
Definition line_text (r : LineRecord) : str := r.2.

(** The body of the loop of [per_line_breakdown]. *)
Definition line_record (inventory : gset Z) (han_only : bool)
    (i : nat) (line : str) : LineRecord :=
  let chars := iter_text_chars line han_only in
  let total := length chars in
  match total with
  | 0 => (i, 0, 0, 100%float, rstrip [LF] line)
  | S _ =>
      let known := sum_list ((λ _, 1) <$> filter (λ ch, ch ∈ inventory) chars) in
      let pct := (int_truediv (N.of_nat known) (Pos.of_nat total) * 100)%float in
      (i, total, known, pct, rstrip [LF] line)
  end.

Definition per_line_breakdown (text : str) (inventory : gset Z)
    (han_only : bool) : list LineRecord :=
  (λ il, line_record inventory han_only il.1 il.2)
    <$> enumerate 1 (splitlines text).

(** ** Pretty printing helpers *)

Definition human_int (n : Z) : str := format_thousands n.

(** The code column of the OOV tables, [f"U+{ord(ch):04X}"]. *)
Definition code_label (ch : char) : str :=
  [0x55; 0x2B]%Z ++ zero_pad 4 (hex_upper (Z.to_N ch)).

(** ** Report builder: the data behind the report's lines *)

(** The unique-OOV string: the keys of [unknown_freq] sorted by
    [(-count, ord(ch))]. *)
Definition unique_oov (rep : CoverageReport) : str :=
  sorted lt_pair
    (λ ch, (- Z.of_nat (counter_get (unknown_freq rep) ch), ch)%Z)
    (counter_keys (unknown_freq rep)).

(** The rows of the high-frequency table, in [build_report_text] as in
    [print_oov_frequency]: [rep["unknown_freq"].most_common(top_unknown)]. *)
Definition top_rows (rep : CoverageReport) (top_unknown : Z)
    : list (Z * nat) :=
  most_common top_unknown (unknown_freq rep).

(** The rows of the low-frequency table: the items sorted by
    [(count, ord(ch))], cut with [items[:top_unknown]]. *)
Definition bottom_rows (rep : CoverageReport) (top_unknown : Z)
    : list (Z * nat) :=
  slice_to top_unknown
    (sorted lt_pair (λ kv, (Z.of_nat kv.2, kv.1)) (unknown_freq rep)).

(** One "Results for [...]" block. *)
Record Block := {
  block_report : CoverageReport;
  block_oov : option (str * list (Z * nat) * list (Z * nat));
  block_lines : option (list LineRecord)
}.

Definition oov_part (rep : CoverageReport) (top_unknown : Z)
    : option (str * list (Z * nat) * list (Z * nat)) :=
  match unknown_chars rep with
  | 0 => None
  | S _ => Some (unique_oov rep, top_rows rep top_unknown,
                 bottom_rows rep top_unknown)
  end.

(** The union of all the dict's values, starting from the empty set. *)
Definition union_set (inventories : Inventories) : gset Z :=
  ⋃ inventories.*2.

(** [build_report_text] up to the rendering of its lines: one block per
    inventory in the dict's order, and the union block when it is asked
    for and there is more than one inventory. *)
Definition build_report (text : str) (inventories : Inventories)
    (union : bool) (top_unknown : Z) (han_only per_line : bool)
    : list (string * Block) * option Block :=
  let union_report :=
    if union && bool_decide (1 < length inventories) then
      Some (coverage_report text (union_set inventories) han_only)
    else None in
  ((λ '(label, inv),
      let rep := coverage_report text inv han_only in
      (label,
       {| block_report := rep;
          block_oov := oov_part rep top_unknown;
          block_lines :=
            if per_line then Some (per_line_breakdown text inv han_only)
            else None |})) <$> inventories,
   (λ rep, {| block_report := rep;
              block_oov := oov_part rep top_unknown;
              block_lines := None |}) <$> union_report).

(** The numbers of the "Inventories Loaded" section: the size of every
    inventory and, when there is a union block, the raw sum of the sizes
    and the size of the union. *)
Definition inventories_loaded (inventories : Inventories) (union : bool)
    : list (string * nat) * option (nat * nat) :=
  ((λ li, (li.1, size li.2)) <$> inventories,
   if union && bool_decide (1 < length inventories) then
     Some (sum_list ((λ inv : gset Z, size inv) <$> inventories.*2),
           size (union_set inventories))
   else None).

(** [run_analysis_from_files], like [build_report] up to the rendering of
    the report's lines.  [read_text p] is the text of the file at [p],
    [None] when reading it raises. *)
Definition run_analysis_from_files (read_text : Path → option str)
    (inventory_paths : list Path) (input_path : Path)
    (union : bool) (top_unknown : Z) (han_only per_line : bool)
    : option (list (string * Block) * option Block) :=
  inventories ← load_inventories read_text inventory_paths;
  text ← read_text input_path;
  Some (build_report text inventories union top_unknown han_only per_line).

(** ** The wizard's questions ([run_coverage_wizard.py]) *)

(** A string literal of the source (ASCII) as a [str]. *)
Fixpoint lit (s : string) : str :=
  match s with
  | EmptyString => []
  | String a rest => Z.of_N (Ascii.N_of_ascii a) :: lit rest
  end.

(** The console: the lines still to come on standard input, and what was
    written to standard output, the latest last. *)
Record Console := { stdin : list (list Z); stdout : list (list Z) }.

(** [input(p)] writes the prompt and reads a line; [None] is the
    [EOFError] at the end of the input. *)
Definition input (p : str) (c : Console) : option str * Console :=
  match stdin c with
  | [] => (None, {| stdin := []; stdout := stdout c ++ [p] |})
  | line :: rest => (Some line, {| stdin := rest; stdout := stdout c ++ [p] |})
  end.

(** [print(s)]. *)
Definition print (s : str) (c : Console) : Console :=
  {| stdin := stdin c; stdout := stdout c ++ [s ++ [LF]] |}.

Definition ask (prompt : str) (default : option str) (c : Console)
    : str * Console :=
  let p :=
    match default with
    | Some d => prompt ++ lit " [" ++ d ++ lit "]: "
    | None => prompt ++ lit ": "
    end in
  let val :=
    match (input p c).1 with
    | Some line => strip line
    | None => []
    end in
  (match val with
   | [] => match default with Some d => d | None => [] end
   | _ :: _ => val
   end, (input p c).2).

(** The loop of [yesno]; [fuel] bounds the number of questions.  [lower]
    is [str.lower], the lower-case mapping of the Unicode database. *)
Fixpoint yesno_loop (lower : str → str) (fuel : nat) (prompt : str)
    (default : bool) (c : Console) : option (bool * Console) :=
  match fuel with
  | 0 => None
  | S fuel' =>
      let d := if default then lit "Y/n" else lit "y/N" in
      let asked := ask (prompt ++ lit " (" ++ d ++ lit ")") None c in
      let ans := lower asked.1 in
      if bool_decide (ans = []) then Some (default, asked.2)
      else if bool_decide (ans ∈ [lit "y"; lit "yes"]) then Some (true, asked.2)
      else if bool_decide (ans ∈ [lit "n"; lit "no"]) then Some (false, asked.2)
      else yesno_loop lower fuel' prompt default
             (print (lit "Please answer y or n.") asked.2)
  end.

(** [yesno(prompt, default)].  Every question but the last consumes a
    line of input, so one more than the number of lines is fuel enough. *)
Definition yesno (lower : str → str) (prompt : str) (default : bool)
    (c : Console) : option (bool * Console) :=
  yesno_loop lower (S (length (stdin c))) prompt default c.

(** Lower case for the letters A to Z only, for the examples. *)
Definition ascii_lower (s : str) : str :=
  (λ ch, if ((0x41 <=? ch) && (ch <=? 0x5A))%Z then (ch + 0x20)%Z else ch) <$> s.

(** ** The specification's wording, for comparison *)

(** Lines as the specification words them: a line ends at a line-feed, a
    last fragment without one is a line, the empty text has none. *)
Fixpoint spec_lines_from (cur : str) (s : str) : list str :=
  match s with
  | [] => match cur with [] => [] | _ => [rev cur] end
  | c :: rest =>
      if bool_decide (c = LF) then rev cur :: spec_lines_from [] rest
      else spec_lines_from (c :: cur) rest
  end.

Definition spec_lines (s : str) : list str := spec_lines_from [] s.

(** A label as the specification resolves it, given the labels [used] so
    far: the base when it is free, else the base with the first of the
    suffixes -2, -3, ... that gives a free label. *)
Definition resolved (used : list string) (base label : string) : Prop :=
  (label ∉ used) ∧
  (((base ∉ used) ∧ label = base) ∨
   (base ∈ used ∧
    (∃ n, 2 ≤ n ∧ label = suffixed base n ∧
       (∀ k, 2 ≤ k < n → suffixed base k ∈ used)))).

(** The specification's Top-N: the first [n] of the canonical ordering. *)
Definition spec_top (rep : CoverageReport) (n : Z) : str :=
  take (Z.to_nat n) (unique_oov rep).

(** ** Predicates of the statements *)

(** The distinct characters of a string, each at its first occurrence. *)
Fixpoint first_occurrences (l : str) : str :=
  match l with
  | [] => []
  | c :: rest => c :: filter (λ x, x ≠ c) (first_occurrences rest)
  end.

(** How often a character occurs in a string. *)
Definition occurrences (ch : char) (l : str) : nat :=
  length (filter (λ x, x = ch) l).

(** The order [sorted] establishes on keys that are pairs of integers. *)
Definition le_key {A} (key : A → Z * Z) (a b : A) : Prop :=
  ((key a).1 < (key b).1 ∨ (key a).1 = (key b).1 ∧ (key a).2 ≤ (key b).2)%Z.

(** A string that holds no line boundary. *)
Definition no_linebreak (l : str) : Prop :=
  Forall (λ c, is_linebreak c = false) l.

(** What [splitlines] does, boundary by boundary: nothing for the empty
    text; a last fragment without boundary is a line; a boundary ends a
    line, and CR followed by LF is one boundary. *)
Definition splits_at_boundaries (split : str → list str) : Prop :=
  split [] = [] ∧
  (∀ l, l ≠ [] → no_linebreak l → split l = [l]) ∧
  (∀ l b rest, no_linebreak l → is_linebreak b = true →
     ¬ (b = CR ∧ ∃ rest', rest = LF :: rest') →
     split (l ++ b :: rest) = l :: split rest) ∧
  (∀ l rest, no_linebreak l →
     split (l ++ CR :: LF :: rest) = l :: split rest).

(** What a per-line record says about its own line. *)
Definition record_counts_line (inventory : gset Z) (han_only : bool)
    (r : LineRecord) : Prop :=
  let chars := iter_text_chars (line_text r) han_only in
  line_total r = length chars ∧
  line_known r = length (filter (λ ch, ch ∈ inventory) chars) ∧
  (line_total r = 0 → line_pct r = 100%float) ∧
  (0 < line_total r →
     line_pct r
     = (int_truediv (N.of_nat (line_known r)) (Pos.of_nat (line_total r))
        * 100)%float).

(** Reading numerals back: the characters of a decimal or hexadecimal
    numeral as the numeral, and its value. *)
Fixpoint chars_uint (s : str) : Decimal.uint :=
  match s with
  | [] => Decimal.Nil
  | c :: rest =>
      let u := chars_uint rest in
      if (c =? 0x30)%Z then Decimal.D0 u else if (c =? 0x31)%Z then Decimal.D1 u
      else if (c =? 0x32)%Z then Decimal.D2 u else if (c =? 0x33)%Z then Decimal.D3 u
      else if (c =? 0x34)%Z then Decimal.D4 u else if (c =? 0x35)%Z then Decimal.D5 u
      else if (c =? 0x36)%Z then Decimal.D6 u else if (c =? 0x37)%Z then Decimal.D7 u
      else if (c =? 0x38)%Z then Decimal.D8 u else if (c =? 0x39)%Z then Decimal.D9 u
      else Decimal.Nil
  end.

Definition read_decimal (s : str) : N := N.of_uint (chars_uint s).

Fixpoint chars_hex_uint (s : str) : Hexadecimal.uint :=
  match s with
  | [] => Hexadecimal.Nil
  | c :: rest =>
      let u := chars_hex_uint rest in
      if (c =? 0x30)%Z then Hexadecimal.D0 u else if (c =? 0x31)%Z then Hexadecimal.D1 u
      else if (c =? 0x32)%Z then Hexadecimal.D2 u else if (c =? 0x33)%Z then Hexadecimal.D3 u
      else if (c =? 0x34)%Z then Hexadecimal.D4 u else if (c =? 0x35)%Z then Hexadecimal.D5 u
      else if (c =? 0x36)%Z then Hexadecimal.D6 u else if (c =? 0x37)%Z then Hexadecimal.D7 u
      else if (c =? 0x38)%Z then Hexadecimal.D8 u else if (c =? 0x39)%Z then Hexadecimal.D9 u
      else if (c =? 0x41)%Z then Hexadecimal.Da u else if (c =? 0x42)%Z then Hexadecimal.Db u
      else if (c =? 0x43)%Z then Hexadecimal.Dc u else if (c =? 0x44)%Z then Hexadecimal.Dd u
      else if (c =? 0x45)%Z then Hexadecimal.De u else if (c =? 0x46)%Z then Hexadecimal.Df u
      else Hexadecimal.Nil
  end.

Definition read_hex (s : str) : N := N.of_hex_uint (chars_hex_uint s).

Definition is_digit (c : char) : Prop := (0x30 ≤ c ≤ 0x39)%Z.

(** An upper-case hexadecimal digit: 0 to 9 or A to F. *)
Definition is_hex_upper (c : char) : Prop :=
  (0x30 ≤ c ≤ 0x39 ∨ 0x41 ≤ c ≤ 0x46)%Z.

(** What two blocks share when the one counts Han characters only and
    the other all characters. *)
Definition same_known (b1 b2 : Block) : Prop :=
  known_chars (block_report b1) = known_chars (block_report b2) ∧
  known_freq (block_report b1) = known_freq (block_report b2) ∧
  total_chars (block_report b1) ≤ total_chars (block_report b2) ∧
  unknown_chars (block_report b1) ≤ unknown_chars (block_report b2).

(** What an answer to [yesno] decides, once stripped and in lower case:
    nothing when it is none of the empty answer, y, yes, n and no. *)
Definition decides (default : bool) (ans : str) : option bool :=
  if bool_decide (ans = []) then Some default
  else if bool_decide (ans ∈ [lit "y"; lit "yes"]) then Some true
  else if bool_decide (ans ∈ [lit "n"; lit "no"]) then Some false
  else None.

(** The lines at the head of the input that decide nothing. *)
Fixpoint rejected (lower : str → str) (default : bool) (lines : list (list Z))
    : list (list Z) :=
  match lines with
  | [] => []
  | line :: rest =>
      match decides default (lower (strip line)) with
      | Some _ => []
      | None => line :: rejected lower default rest
      end
  end.

(** An inventory that holds Han characters only. *)
Definition han_inventory (inventory : gset Z) : Prop :=
  ∀ c, c ∈ inventory → is_han_cp c = true.

(** * Properties *)

(** ** Lists, filters and counters *)

Section Filter.
Context {A : Type} (P Q : A → Prop) `{!∀ x, Decision (P x)}
  `{!∀ x, Decision (Q x)}.

Lemma filter_split_length (l : list A) :
  length (filter P l) + length (filter (λ x, ¬ P x) l) = length l.
Proof.
  induction l as [|x l IH]; [done|].
  rewrite !filter_cons.
  destruct (decide (P x)) as [HP|HP], (decide (¬ P x)) as [HN|HN];
    simpl; try lia; tauto.
Qed.

Lemma filter_length_mono (l : list A) :
  (∀ x, P x → Q x) → length (filter P l) ≤ length (filter Q l).
Proof.
  intros HPQ. induction l as [|x l IH]; [done|].
  rewrite !filter_cons.
  destruct (decide (P x)) as [HP|HP], (decide (Q x)) as [HQ|HQ];
    simpl; try lia.
  exfalso; auto.
Qed.

Lemma sum_of_ones (l : list A) : sum_list ((λ _, 1) <$> l) = length l.
Proof. induction l as [|x l IH]; [done|]. rewrite fmap_cons. simpl. by rewrite IH. Qed.
End Filter.

Lemma counter_total_incr ch c :
  counter_total (counter_incr ch c) = S (counter_total c).
Proof.
  unfold counter_total.
  induction c as [|[k v] c IH]; [done|].
  cbn [counter_incr]. case_bool_decide; rewrite !fmap_cons; cbn [snd sum_list];
    [done|].
  change (sum_list_with id ?l) with (sum_list l). rewrite IH. lia.
Qed.

Lemma counter_total_fold l c :
  counter_total (fold_left (λ c ch, counter_incr ch c) l c)
  = length l + counter_total c.
Proof.
  revert c. induction l as [|ch l IH]; intros c; simpl; [done|].
  rewrite IH, counter_total_incr. lia.
Qed.

Lemma counter_total_of l : counter_total (counter_of l) = length l.
Proof.
  unfold counter_of. rewrite counter_total_fold.
  unfold counter_total. simpl. lia.
Qed.

(** ** The classifier *)

Lemma han_scan_spec cp rs :
  han_scan cp rs = true ↔ ∃ r, r ∈ rs ∧ in_range cp r.
Proof.
  unfold in_range. induction rs as [|[s e] rs IH]; simpl.
  - split; [done|]. intros (r & Hr & _). by apply elem_of_nil in Hr.
  - destruct ((s <=? cp)%Z && (cp <=? e)%Z) eqn:Hin.
    + split; [|done]. intros _. exists (s, e). split; [left|].
      apply andb_prop in Hin. simpl. lia.
    + rewrite IH. split.
      * intros (r & Hr & Hc). exists r. split; [by right|done].
      * intros (r & Hr & Hc). apply elem_of_cons in Hr as [->|Hr].
        -- simpl in Hc. apply andb_false_iff in Hin. lia.
        -- by exists r.
Qed.

Lemma strip_single c : strip [c] = [] ↔ isspace c = true.
Proof.
  unfold strip, rstrip_by. simpl.
  destruct (isspace c) eqn:Hc; simpl; [done|].
  rewrite Hc. simpl. split; discriminate.
Qed.

(** C6: [is_han] returns false on the empty string; on a string of one
    character it returns, and the result is true exactly when the code
    point lies in one of the twelve inclusive ranges of [HAN_RANGES]. *)
Theorem is_han_classifies :
  is_han [] = Some false ∧
  length HAN_RANGES = 12 ∧
  ∀ c, ∃ b, is_han [c] = Some b ∧
    (b = true ↔ ∃ r, r ∈ HAN_RANGES ∧ in_range c r).
Proof.
  split; [done|]. split; [done|].
  intros c. exists (is_han_cp c). split; [done|].
  apply han_scan_spec.
Qed.

(** C5, as the specification words it, fails: Extension I is listed after
    Extension H, and it starts below the point where Extension H ends. *)
Lemma HAN_RANGES_not_ascending : ¬ ascending_ranges HAN_RANGES.
Proof.
  intros Hasc.
  specialize (Hasc 9 (0x31350, 0x323AF)%Z (0x2EBF0, 0x2EE5D)%Z eq_refl eq_refl).
  simpl in Hasc. lia.
Qed.

Lemma lookup_HAN_RANGES i r :
  HAN_RANGES !! i = Some r →
  (i = 0 ∧ r = (0x3400, 0x4DBF)%Z) ∨ (i = 1 ∧ r = (0x4E00, 0x9FFF)%Z) ∨
  (i = 2 ∧ r = (0xF900, 0xFAFF)%Z) ∨ (i = 3 ∧ r = (0x20000, 0x2A6DF)%Z) ∨
  (i = 4 ∧ r = (0x2A700, 0x2B73F)%Z) ∨ (i = 5 ∧ r = (0x2B740, 0x2B81F)%Z) ∨
  (i = 6 ∧ r = (0x2B820, 0x2CEAF)%Z) ∨ (i = 7 ∧ r = (0x2CEB0, 0x2EBEF)%Z) ∨
  (i = 8 ∧ r = (0x30000, 0x3134F)%Z) ∨ (i = 9 ∧ r = (0x31350, 0x323AF)%Z) ∨
  (i = 10 ∧ r = (0x2EBF0, 0x2EE5D)%Z) ∨ (i = 11 ∧ r = (0x323B0, 0x33479)%Z).
Proof.
  unfold HAN_RANGES.
  do 12 (destruct i as [|i]; [intros [= <-]; tauto|]).
  intros Hr. simpl in Hr. by rewrite lookup_nil in Hr.
Qed.

(** C5, amended: the twelve intervals are well formed and pairwise
    disjoint, and each starts after the one listed before it ends, except
    Extension I (index 10), which is listed after Extension H (index 9). *)
Theorem HAN_RANGES_disjoint :
  length HAN_RANGES = 12 ∧
  Forall (λ r, (r.1 ≤ r.2)%Z) HAN_RANGES ∧
  (∀ i j a b, i < j →
     HAN_RANGES !! i = Some a → HAN_RANGES !! j = Some b →
     (a.2 < b.1 ∨ b.2 < a.1)%Z) ∧
  (∀ i a b, i ≠ 9 →
     HAN_RANGES !! i = Some a → HAN_RANGES !! S i = Some b → (a.2 < b.1)%Z).
Proof.
  split; [done|]. split; [|split].
  - unfold HAN_RANGES. repeat constructor; simpl; lia.
  - intros i j a b Hij Hi Hj.
    apply lookup_HAN_RANGES in Hi, Hj.
    repeat destruct Hi as [[-> ->]|Hi]; try destruct Hi as [-> ->];
      repeat destruct Hj as [[-> ->]|Hj]; try destruct Hj as [-> ->];
      simpl; lia.
  - intros i a b Hne Hi Hj.
    apply lookup_HAN_RANGES in Hi, Hj.
    repeat destruct Hi as [[-> ->]|Hi]; try destruct Hi as [-> ->];
      repeat destruct Hj as [[? ->]|Hj]; try destruct Hj as [? ->];
      simpl; lia.
Qed.

(** ** The coverage analyzer *)

Lemma iter_text_chars_han_le text :
  length (iter_text_chars text true) ≤ length (iter_text_chars text false).
Proof.
  induction text as [|ch text IH]; [done|].
  cbn [iter_text_chars andb].
  destruct (is_han_cp ch); cbn [negb]; case_bool_decide; simpl; lia.
Qed.

Lemma iter_text_chars_skipped text han_only :
  Forall (λ ch, han_only && negb (is_han_cp ch) = true ∨ isspace ch = true)
    text →
  iter_text_chars text han_only = [].
Proof.
  induction 1 as [|ch text Hch _ IH]; [done|].
  cbn [iter_text_chars]. destruct Hch as [->|Hsp]; [done|].
  apply strip_single in Hsp. rewrite bool_decide_eq_true_2 by done.
  by destruct (han_only && negb (is_han_cp ch)).
Qed.

(** C1: in every report the known and the unknown count add up to the
    total. *)
Theorem coverage_counts_add_up text inventory han_only :
  known_chars (coverage_report text inventory han_only)
  + unknown_chars (coverage_report text inventory han_only)
  = total_chars (coverage_report text inventory han_only).
Proof.
  unfold coverage_report. cbn [known_chars unknown_chars total_chars].
  apply filter_split_length.
Qed.

(** C2: with [total] the number of counted characters of the text and
    [known] the number of those that are in the inventory, the report's
    percentage is [known / total * 100] when [total] is positive and
    exactly 100.0 when it is zero, as it is for the empty text and for a
    text all of whose characters are filtered out.  For the text 一二三四
    against the inventory 一二三 that is 3 / 4 * 100, which is 75.0. *)
Theorem coverage_pct_value text inventory han_only :
  let chars := iter_text_chars text han_only in
  let total := length chars in
  let known := length (filter (λ ch, ch ∈ inventory) chars) in
  let r := coverage_report text inventory han_only in
  total_chars r = total ∧ known_chars r = known ∧
  (0 < total →
     coverage_pct r
     = (int_truediv (N.of_nat known) (Pos.of_nat total) * 100)%float) ∧
  (total = 0 → coverage_pct r = 100%float) ∧
  coverage_pct (coverage_report [] inventory han_only) = 100%float ∧
  (Forall (λ ch, han_only && negb (is_han_cp ch) = true ∨ isspace ch = true)
     text →
   total = 0 ∧ coverage_pct r = 100%float) ∧
  coverage_pct
    (coverage_report [0x4E00; 0x4E8C; 0x4E09; 0x56DB]%Z
       (list_to_set [0x4E00; 0x4E8C; 0x4E09]%Z) true)
  = 75%float.
Proof.
  cbv zeta. unfold coverage_report at 1 2 3 4 5 6.
  cbn [total_chars known_chars coverage_pct iter_text_chars].
  split; [done|]. split; [done|]. split; [|split; [|split; [|split]]].
  - destruct (length (iter_text_chars text han_only)); [lia|done].
  - by intros ->.
  - done.
  - intros Hskip. by rewrite (iter_text_chars_skipped _ _ Hskip).
  - vm_compute. reflexivity.
Qed.

(** C7: an inventory that is a union knows at least as many of the text's
    characters as either of its parts. *)
Theorem union_known_monotone text inv1 inv2 han_only :
  Nat.max (known_chars (coverage_report text inv1 han_only))
          (known_chars (coverage_report text inv2 han_only))
  ≤ known_chars (coverage_report text (inv1 ∪ inv2) han_only).
Proof.
  unfold coverage_report. cbn [known_chars].
  apply Nat.max_lub; apply filter_length_mono; set_solver.
Qed.

(** The same for the union that [build_report] takes over a whole dict. *)
Lemma union_set_known_monotone text (inventories : Inventories) label inv
    han_only :
  (label, inv) ∈ inventories →
  known_chars (coverage_report text inv han_only)
  ≤ known_chars (coverage_report text (union_set inventories) han_only).
Proof.
  intros Hin. unfold coverage_report. cbn [known_chars].
  apply filter_length_mono. intros ch Hch.
  unfold union_set. apply elem_of_union_list. exists inv. split; [|done].
  apply list_elem_of_fmap. by exists (label, inv).
Qed.

(** C8: restricting the count to Han characters never counts more. *)
Theorem han_only_counts_fewer text inventory :
  total_chars (coverage_report text inventory true)
  ≤ total_chars (coverage_report text inventory false).
Proof.
  unfold coverage_report. cbn [total_chars].
  apply iter_text_chars_han_le.
Qed.

(** C10: each frequency table's counts add up to the count it belongs
    to. *)
Theorem freq_tables_total text inventory han_only :
  counter_total (known_freq (coverage_report text inventory han_only))
  = known_chars (coverage_report text inventory han_only) ∧
  counter_total (unknown_freq (coverage_report text inventory han_only))
  = unknown_chars (coverage_report text inventory han_only).
Proof.
  unfold coverage_report. cbn [known_freq unknown_freq known_chars unknown_chars].
  split; apply counter_total_of.
Qed.

(** ** The per-line analyzer *)

Lemma splitlines_from_app cur l s :
  no_linebreak l →
  splitlines_from cur (l ++ s) = splitlines_from (rev l ++ cur) s.
Proof.
  intros Hl. revert cur.
  induction Hl as [|c l Hc _ IH]; intros cur; [done|].
  cbn [app splitlines_from]. rewrite Hc, IH.
  cbn [rev]. by rewrite <- app_assoc.
Qed.

Lemma splitlines_boundary cur b rest :
  is_linebreak b = true →
  ¬ (b = CR ∧ ∃ rest', rest = LF :: rest') →
  splitlines_from cur (b :: rest) = rev cur :: splitlines_from [] rest.
Proof.
  intros Hb Hcrlf. cbn [splitlines_from]. rewrite Hb.
  case_bool_decide as Hcr; [|done].
  destruct rest as [|c' rest']; [done|].
  case_bool_decide as Hlf; [|done].
  exfalso. apply Hcrlf. split; [done|]. exists rest'. by rewrite Hlf.
Qed.

Lemma splitlines_crlf cur rest :
  splitlines_from cur (CR :: LF :: rest) = rev cur :: splitlines_from [] rest.
Proof. done. Qed.

Lemma splitlines_splits : splits_at_boundaries splitlines.
Proof.
  unfold splits_at_boundaries, splitlines. repeat split.
  - intros l Hne Hl.
    rewrite <- (app_nil_r l) at 1. rewrite splitlines_from_app by done.
    rewrite app_nil_r. cbn [splitlines_from].
    destruct (rev l) eqn:Hrev.
    + apply (f_equal (@rev _)) in Hrev. rewrite rev_involutive in Hrev. done.
    + by rewrite <- Hrev, rev_involutive.
  - intros l b rest Hl Hb Hcrlf.
    rewrite splitlines_from_app, splitlines_boundary by done.
    by rewrite app_nil_r, rev_involutive.
  - intros l rest Hl.
    rewrite splitlines_from_app, splitlines_crlf by done.
    by rewrite app_nil_r, rev_involutive.
Qed.

(** On a text whose only boundaries are line-feeds, [splitlines] gives the
    lines of the specification. *)
Lemma splitlines_from_lf_only cur s :
  Forall (λ c, is_linebreak c = true → c = LF) s →
  splitlines_from cur s = spec_lines_from cur s.
Proof.
  intros Hs. revert cur.
  induction Hs as [|c s Hc _ IH]; intros cur; [done|].
  cbn [splitlines_from spec_lines_from].
  destruct (is_linebreak c) eqn:Hb.
  - rewrite (Hc eq_refl). rewrite bool_decide_eq_false_2 by done.
    rewrite bool_decide_eq_true_2 by done. by rewrite IH.
  - rewrite bool_decide_eq_false_2; [apply IH|].
    intros ->. done.
Qed.

(** No line that [splitlines] returns holds a boundary. *)
Lemma splitlines_from_clean n : ∀ s cur,
  length s ≤ n → no_linebreak cur →
  Forall no_linebreak (splitlines_from cur s).
Proof.
  assert (Hrev : ∀ cur, no_linebreak cur → no_linebreak (rev cur)).
  { intros cur Hcur. by apply Forall_rev. }
  assert (Hend : ∀ cur, no_linebreak cur →
            Forall no_linebreak (splitlines_from cur [])).
  { intros [|c cur] Hcur; cbn [splitlines_from]; [constructor|].
    repeat constructor. by apply Hrev. }
  induction n as [|n IH]; intros s cur Hlen Hcur.
  - destruct s; [by apply Hend|simpl in Hlen; lia].
  - destruct s as [|c rest]; [by apply Hend|].
    simpl in Hlen. cbn [splitlines_from].
    destruct (is_linebreak c) eqn:Hb.
    + constructor; [by apply Hrev|].
      case_bool_decide; [|apply IH; [lia|constructor]].
      destruct rest as [|c' rest']; [apply IH; [simpl; lia|constructor]|].
      case_bool_decide; apply IH; simpl in *; try lia; constructor.
    + apply IH; [lia|]. by constructor.
Qed.

Lemma lstrip_by_none p l : Forall (λ c, p c = false) l → lstrip_by p l = l.
Proof. destruct 1 as [|c l Hc _]; [done|]. simpl. by rewrite Hc. Qed.

Lemma rstrip_lf_clean l : no_linebreak l → rstrip [LF] l = l.
Proof.
  intros Hl. unfold rstrip, rstrip_by.
  rewrite lstrip_by_none; [apply rev_involutive|].
  apply Forall_rev. eapply Forall_impl; [exact Hl|].
  intros c Hc. apply bool_decide_eq_false_2.
  intros Hin. apply list_elem_of_singleton in Hin as ->. done.
Qed.

Lemma enumerate_fst {A} n (l : list A) : (enumerate n l).*1 = seq n (length l).
Proof.
  revert n. induction l as [|x l IH]; intros n; [done|].
  simpl. by rewrite IH.
Qed.

Lemma enumerate_snd {A} n (l : list A) : (enumerate n l).*2 = l.
Proof.
  revert n. induction l as [|x l IH]; intros n; [done|].
  simpl. by rewrite IH.
Qed.

Lemma line_record_fields inventory han_only i line :
  let r := line_record inventory han_only i line in
  let chars := iter_text_chars line han_only in
  line_no r = i ∧ line_text r = rstrip [LF] line ∧
  line_total r = length chars ∧
  line_known r = length (filter (λ ch, ch ∈ inventory) chars) ∧
  (line_total r = 0 → line_pct r = 100%float) ∧
  (0 < line_total r →
     line_pct r
     = (int_truediv (N.of_nat (line_known r)) (Pos.of_nat (line_total r))
        * 100)%float).
Proof.
  cbv zeta. unfold line_record.
  destruct (iter_text_chars line han_only) as [|c chars].
  - cbn. repeat split. lia.
  - cbn [length]. unfold line_no, line_text, line_total, line_known, line_pct.
    cbn [fst snd]. rewrite sum_of_ones.
    repeat split; done.
Qed.

Lemma records_of_lines inventory han_only lines : ∀ n,
  Forall no_linebreak lines →
  let recs :=
    (λ il, line_record inventory han_only il.1 il.2) <$> enumerate n lines in
  line_text <$> recs = lines ∧
  line_no <$> recs = seq n (length lines) ∧
  Forall (record_counts_line inventory han_only) recs.
Proof.
  cbv zeta. induction lines as [|line lines IH]; intros n Hclean.
  - repeat split; constructor.
  - apply Forall_cons in Hclean as [Hline Hlines].
    destruct (IH (S n) Hlines) as (IHt & IHn & IHr).
    destruct (line_record_fields inventory han_only n line)
      as (Hno & Htext & Htot & Hkn & Hz & Hp).
    rewrite rstrip_lf_clean in Htext by done.
    cbn [enumerate fmap list_fmap fst snd length seq].
    split; [|split].
    + f_equal; [exact Htext|exact IHt].
    + f_equal; [exact Hno|exact IHn].
    + constructor; [|exact IHr].
      unfold record_counts_line. rewrite Htext. by repeat split.
Qed.

(** C4, as the specification words it, fails: a carriage return ends a
    line for [per_line_breakdown], and does not for the specification. *)
Lemma per_line_breakdown_splits_at_cr :
  line_text <$> per_line_breakdown [0x7532; 0x0D; 0x4E59]%Z ∅ true
  ≠ spec_lines [0x7532; 0x0D; 0x4E59]%Z.
Proof. vm_compute. discriminate. Qed.

(** C4, amended: [per_line_breakdown] gives one record per line, in the
    order of the lines and numbered from 1; a line ends at any boundary of
    [str.splitlines] (a line-feed, but also CR, CR LF, VT, FF, FS, GS, RS,
    NEL, LS, PS), a last fragment without boundary is a line, the empty
    text has none; on a text whose only boundaries are line-feeds these are
    the specification's lines.  Each record counts its own line, with
    percentage 100.0 when the line's total is zero. *)
Theorem per_line_breakdown_lines inventory han_only :
  per_line_breakdown [] inventory han_only = [] ∧
  splits_at_boundaries
    (λ text, line_text <$> per_line_breakdown text inventory han_only) ∧
  (∀ text, Forall (λ c, is_linebreak c = true → c = LF) text →
     line_text <$> per_line_breakdown text inventory han_only
     = spec_lines text) ∧
  (∀ text,
     line_no <$> per_line_breakdown text inventory han_only
     = seq 1 (length (per_line_breakdown text inventory han_only))) ∧
  (∀ text,
     Forall (record_counts_line inventory han_only)
       (per_line_breakdown text inventory han_only)).
Proof.
  assert (Hclean : ∀ text, Forall no_linebreak (splitlines text)).
  { intros text. apply (splitlines_from_clean (length text)); [lia|constructor]. }
  assert (Htext : ∀ text,
    line_text <$> per_line_breakdown text inventory han_only
    = splitlines text).
  { intros text. apply (records_of_lines inventory han_only _ 1), Hclean. }
  split; [done|]. split; [|split; [|split]].
  - destruct splitlines_splits as (H0 & H1 & H2 & H3).
    unfold splits_at_boundaries. rewrite Htext.
    split; [done|]. split; [|split].
    + intros l Hne Hl. rewrite Htext. by apply H1.
    + intros l b rest Hl Hb Hcrlf. rewrite !Htext. by apply H2.
    + intros l rest Hl. rewrite !Htext. by apply H3.
  - intros text Hlf. rewrite Htext. by apply splitlines_from_lf_only.
  - intros text.
    destruct (records_of_lines inventory han_only _ 1 (Hclean text))
      as (_ & Hn & _).
    unfold per_line_breakdown. rewrite Hn. by rewrite length_fmap, <- (length_fmap fst), enumerate_fst, length_seq.
  - intros text. apply (records_of_lines inventory han_only _ 1), Hclean.
Qed.

(** ** The inventory loader *)

Lemma string_length_app (s1 s2 : string) :
  String.length (s1 +:+ s2) = String.length s1 + String.length s2.
Proof.
  induction s1 as [|a s1 IH]; [done|].
  change (String a s1 +:+ s2) with (String a (s1 +:+ s2)).
  cbn [String.length]. by rewrite IH.
Qed.

Lemma suffixed_inj base n m : suffixed base n = suffixed base m → n = m.
Proof.
  unfold suffixed. intros Heq.
  apply (inj (String.app base)), (inj (String.app "-")) in Heq.
  by apply (inj pretty) in Heq.
Qed.

Lemma suffixed_ne_base base n : suffixed base n ≠ base.
Proof.
  unfold suffixed. intros Heq.
  apply (f_equal String.length) in Heq.
  rewrite !string_length_app in Heq. cbn [String.length] in Heq. lia.
Qed.

Lemma dict_contains_spec d label :
  dict_contains d label = true ↔ label ∈ d.*1.
Proof. unfold dict_contains. apply bool_decide_eq_true. Qed.

Lemma dict_set_fresh d label inv :
  label ∉ d.*1 → dict_set d label inv = d ++ [(label, inv)].
Proof.
  induction d as [|[k v] d IH]; intros Hfresh; [done|].
  rewrite fmap_cons, not_elem_of_cons in Hfresh. destruct Hfresh as [Hne Hd].
  cbn [dict_set fst]. rewrite bool_decide_eq_false_2 by done.
  cbn [app]. by rewrite IH.
Qed.

(** The label the loop returns is free, and it is either the label the
    loop was entered with or the first free one among the suffixed labels
    from [n] on. *)
Lemma label_loop_result fuel : ∀ d base label n l,
  label_loop fuel d base label n = Some l →
  (l ∉ d.*1) ∧
  (l = label ∨
   (label ∈ d.*1 ∧
    (∃ m, n ≤ m ∧ l = suffixed base m ∧
       (∀ k, n ≤ k < m → suffixed base k ∈ d.*1)))).
Proof.
  induction fuel as [|fuel IH]; intros d base label n l; cbn [label_loop];
    destruct (dict_contains d label) eqn:Hin.
  - discriminate.
  - intros [= <-]. split; [|by left].
    intros Hl. apply dict_contains_spec in Hl. congruence.
  - intros Hloop. apply dict_contains_spec in Hin.
    destruct (IH _ _ _ _ _ Hloop) as [Hfree [->|(Hn & m & Hm & -> & Hused)]].
    + split; [done|]. right. split; [done|].
      exists n. split; [lia|]. split; [done|]. intros k Hk. lia.
    + split; [done|]. right. split; [done|].
      exists m. split; [lia|]. split; [done|]. intros k Hk.
      destruct (decide (k = n)) as [->|Hne]; [done|]. apply Hused. lia.
  - intros [= <-]. split; [|by left].
    intros Hl. apply dict_contains_spec in Hl. congruence.
Qed.

(** The loop returns when its fuel covers the labels it can still find
    in the dict ([U] holds them). *)
Lemma label_loop_total fuel : ∀ d base label n (U : gset string),
  (∀ k, n ≤ k → suffixed base k ∈ d.*1 → suffixed base k ∈ U) →
  (label ∈ d.*1 → label ∈ U) →
  (∀ k, n ≤ k → suffixed base k ≠ label) →
  size U ≤ fuel →
  is_Some (label_loop fuel d base label n).
Proof.
  induction fuel as [|fuel IH]; intros d base label n U Hsuf Hlab Hne Hsize;
    cbn [label_loop]; destruct (dict_contains d label) eqn:Hin; try by eexists.
  - apply dict_contains_spec, Hlab in Hin.
    assert (size U ≠ 0) by (apply size_non_empty_iff; set_solver). lia.
  - apply dict_contains_spec, Hlab in Hin.
    apply (IH _ _ _ _ (U ∖ {[label]})).
    + intros k Hk Hused. apply elem_of_difference. split.
      * apply Hsuf; [lia|done].
      * rewrite elem_of_singleton. apply Hne. lia.
    + intros Hused. apply elem_of_difference. split.
      * by apply Hsuf.
      * rewrite elem_of_singleton. by apply Hne.
    + intros k Hk Heq. apply suffixed_inj in Heq. lia.
    + rewrite size_difference by set_solver. rewrite size_singleton.
      assert (size U ≠ 0) by (apply size_non_empty_iff; set_solver). lia.
Qed.

Lemma label_loop_returns d base :
  NoDup d.*1 →
  ∃ l, label_loop (length d) d base base 2 = Some l ∧ resolved d.*1 base l.
Proof.
  intros Hnd.
  destruct (label_loop_total (length d) d base base 2 (list_to_set d.*1))
    as [l Hl].
  - intros k _ Hused. by apply elem_of_list_to_set.
  - intros Hused. by apply elem_of_list_to_set.
  - intros k _. apply suffixed_ne_base.
  - rewrite size_list_to_set by done. by rewrite length_fmap.
  - exists l. split; [done|].
    destruct (label_loop_result _ _ _ _ _ _ Hl)
      as [Hfree [->|(Hbase & m & Hm & -> & Hused)]].
    + split; [done|]. left. by split.
    + split; [done|]. right. split; [done|]. by exists m.
Qed.

Lemma load_loop_spec read_text paths : ∀ d,
  NoDup d.*1 →
  Forall (λ p, is_Some (read_text p)) paths →
  ∃ new, load_loop read_text paths d = Some (d ++ new) ∧
    NoDup (d ++ new).*1 ∧ length new = length paths ∧
    (∀ i p, paths !! i = Some p →
       ∃ label data, new !! i = Some (label, load_inventory data) ∧
         read_text p = Some data ∧
         resolved (d ++ take i new).*1 (stem_or_str p) label).
Proof.
  induction paths as [|p paths IH]; intros d Hnd Hread.
  - exists []. rewrite app_nil_r. repeat split; try done.
  - apply Forall_cons in Hread as [[data Hdata] Hread].
    destruct (label_loop_returns d (stem_or_str p) Hnd) as (l & Hl & Hres).
    assert (Hfree : l ∉ d.*1) by apply Hres.
    assert (Hnd' : NoDup (d ++ [(l, load_inventory data)]).*1).
    { rewrite fmap_app. apply NoDup_app. split; [done|]. split.
      - intros x Hx Hx'. apply list_elem_of_singleton in Hx'. by subst.
      - apply NoDup_singleton. }
    destruct (IH _ Hnd' Hread) as (new & Hloop & Hnd'' & Hlen & Hidx).
    exists ((l, load_inventory data) :: new).
    rewrite <- app_assoc in Hloop, Hnd''. cbn [app] in Hloop, Hnd''.
    split; [|split; [done|split; [simpl; by rewrite Hlen|]]].
    + cbn [load_loop]. rewrite Hl. cbn [mbind option_bind].
      rewrite Hdata. cbn [mbind option_bind].
      by rewrite dict_set_fresh.
    + intros [|i] q Hq.
      * injection Hq as <-. exists l, data.
        cbn [take]. by rewrite app_nil_r.
      * destruct (Hidx i q Hq) as (label & data' & Hnew & Hq' & Hres').
        exists label, data'. split; [done|]. split; [done|].
        cbn [take]. by rewrite <- app_assoc in Hres'.
Qed.

(** C9: for input files that can be read (so that each has a name and a
    stem), [load_inventories] returns a dict with one entry per file, in
    the order of the files; the entry of a file holds its inventory under
    the file's stem, or, when that label is taken, under the stem with the
    first of the suffixes -2, -3, ... that gives a label not yet taken. *)
Theorem load_inventories_labels read_text paths :
  Forall (λ p, stem p ≠ "" ∧ is_Some (read_text p)) paths →
  ∃ d, load_inventories read_text paths = Some d ∧
    length d = length paths ∧ NoDup d.*1 ∧
    (∀ i p, paths !! i = Some p →
       ∃ label data, d !! i = Some (label, load_inventory data) ∧
         read_text p = Some data ∧
         resolved (take i d).*1 (stem p) label).
Proof.
  intros Hpaths.
  destruct (load_loop_spec read_text paths [] (NoDup_nil_2))
    as (d & Hload & Hnd & Hlen & Hidx).
  { eapply Forall_impl; [exact Hpaths|]. by intros p [_ ?]. }
  exists d. cbn [app] in *. repeat split; try done.
  intros i p Hp. destruct (Hidx i p Hp) as (label & data & Hd & Hdata & Hres).
  rewrite Forall_forall in Hpaths.
  destruct (Hpaths p) as [Hstem _]; [by eapply list_elem_of_lookup_2|].
  unfold stem_or_str in Hres. rewrite bool_decide_eq_false_2 in Hres by done.
  by exists label, data.
Qed.

(** Two files of stem [a], read together. *)
Lemma load_inventories_labels_witness :
  ∃ d,
    load_inventories (λ _, Some [0x7532%Z])
      [ {| stem := "a"; path_str := "a.txt" |};
        {| stem := "a"; path_str := "subdir/a.txt" |} ] = Some d ∧
    length d = 2 ∧ NoDup d.*1 ∧
    (∀ i p,
       [ {| stem := "a"; path_str := "a.txt" |};
         {| stem := "a"; path_str := "subdir/a.txt" |} ] !! i = Some p →
       ∃ label data, d !! i = Some (label, load_inventory data) ∧
         (λ _ : Path, Some [0x7532%Z]) p = Some data ∧
         resolved (take i d).*1 (stem p) label).
Proof.
  apply (load_inventories_labels (λ _, Some [0x7532%Z])).
  repeat (apply Forall_cons; split; [split; [discriminate|by eexists]|]).
  by apply Forall_nil.
Defined.

(** The labels of that run: [a], then [a-2]. *)
Example load_inventories_same_stem :
  (λ d : Inventories, d.*1) <$>
    load_inventories (λ _, Some [0x7532%Z])
      [ {| stem := "a"; path_str := "a.txt" |};
        {| stem := "a"; path_str := "subdir/a.txt" |} ]
  = Some ["a"; "a-2"].
Proof. vm_compute. reflexivity. Qed.

(** ** The report builder *)

Lemma insert_desc_length {A K} (lt : K → K → bool) (key : A → K) x l :
  length (insert_desc lt key x l) = S (length l).
Proof.
  induction l as [|y l IH]; [done|].
  cbn [insert_desc]. destruct (lt (key x) (key y)); simpl; [|done].
  by rewrite IH.
Qed.

Lemma sorted_reverse_length {A K} (lt : K → K → bool) (key : A → K) l :
  length (sorted_reverse lt key l) = length l.
Proof.
  induction l as [|x l IH]; [done|].
  cbn [sorted_reverse foldr]. rewrite insert_desc_length.
  fold (sorted_reverse lt key l). by rewrite IH.
Qed.

(** [sorted(..., reverse=True)] on integer keys: a permutation, in
    descending order of key, that keeps elements of equal key in the order
    they had. *)
Section StableDescending.
Context {A : Type} (key : A → nat).

Lemma insert_desc_perm x l : insert_desc Nat.ltb key x l ≡ₚ x :: l.
Proof.
  induction l as [|y l IH]; [done|].
  cbn [insert_desc]. destruct (key x <? key y); [|done].
  rewrite IH. apply Permutation_swap.
Qed.

Lemma sorted_reverse_perm l : sorted_reverse Nat.ltb key l ≡ₚ l.
Proof.
  induction l as [|x l IH]; [done|].
  cbn [sorted_reverse foldr]. rewrite insert_desc_perm.
  by apply Permutation_skip.
Qed.

Lemma insert_desc_sorted x l :
  StronglySorted (λ a b, key b ≤ key a) l →
  StronglySorted (λ a b, key b ≤ key a) (insert_desc Nat.ltb key x l).
Proof.
  induction 1 as [|y l Hsorted IH Hy]; [repeat constructor|].
  cbn [insert_desc]. destruct (Nat.ltb_spec (key x) (key y)) as [Hlt|Hge].
  - constructor; [done|].
    rewrite insert_desc_perm. constructor; [lia|done].
  - constructor; [by constructor|].
    constructor; [done|]. eapply Forall_impl; [exact Hy|].
    intros z Hz. simpl in Hz. lia.
Qed.

Lemma sorted_reverse_sorted l :
  StronglySorted (λ a b, key b ≤ key a) (sorted_reverse Nat.ltb key l).
Proof.
  induction l as [|x l IH]; [constructor|].
  cbn [sorted_reverse foldr]. by apply insert_desc_sorted.
Qed.

Lemma insert_desc_stable k x l :
  filter (λ y, key y = k) (insert_desc Nat.ltb key x l)
  = filter (λ y, key y = k) (x :: l).
Proof.
  induction l as [|y l IH]; [done|].
  cbn [insert_desc]. destruct (Nat.ltb_spec (key x) (key y)) as [Hlt|Hge];
    [|done].
  rewrite (filter_cons _ y), IH, !filter_cons.
  destruct (decide (key y = k)), (decide (key x = k)); try done. lia.
Qed.

Lemma sorted_reverse_stable k l :
  filter (λ y, key y = k) (sorted_reverse Nat.ltb key l)
  = filter (λ y, key y = k) l.
Proof.
  induction l as [|x l IH]; [done|].
  cbn [sorted_reverse foldr]. rewrite insert_desc_stable.
  fold (sorted_reverse Nat.ltb key l). by rewrite !filter_cons, IH.
Qed.
End StableDescending.

Lemma StronglySorted_weaken {A} (R R' : A → A → Prop) l :
  (∀ a b, R a b → R' a b) → StronglySorted R l → StronglySorted R' l.
Proof.
  intros HR. induction 1 as [|x l Hsorted IH Hx]; constructor; [done|].
  eapply Forall_impl; [exact Hx|]. intros y. apply HR.
Qed.

(** [sorted] on keys that are pairs of integers: a permutation in
    ascending lexicographic order of key. *)
Section AscendingPairs.
Context {A : Type} (key : A → Z * Z).

Lemma lt_pair_spec (p q : Z * Z) :
  lt_pair p q = true ↔ (p.1 < q.1 ∨ p.1 = q.1 ∧ p.2 < q.2)%Z.
Proof.
  unfold lt_pair. rewrite orb_true_iff, andb_true_iff.
  rewrite !Z.ltb_lt, Z.eqb_eq. tauto.
Qed.

Lemma insert_asc_perm x l : insert_asc lt_pair key x l ≡ₚ x :: l.
Proof.
  induction l as [|y l IH]; [done|].
  cbn [insert_asc]. destruct (lt_pair (key y) (key x)); [|done].
  rewrite IH. apply Permutation_swap.
Qed.

Lemma sorted_perm l : sorted lt_pair key l ≡ₚ l.
Proof.
  induction l as [|x l IH]; [done|].
  cbn [sorted foldr]. rewrite insert_asc_perm. by apply Permutation_skip.
Qed.

Lemma insert_asc_sorted x l :
  StronglySorted (le_key key) l →
  StronglySorted (le_key key) (insert_asc lt_pair key x l).
Proof.
  induction 1 as [|y l Hsorted IH Hy]; [repeat constructor|].
  cbn [insert_asc]. destruct (lt_pair (key y) (key x)) eqn:Hlt.
  - apply lt_pair_spec in Hlt. constructor; [done|].
    rewrite insert_asc_perm. constructor; [|done]. unfold le_key. lia.
  - assert (Hxy : le_key key x y).
    { unfold le_key. destruct (lt_pair_spec (key y) (key x)) as [_ Hspec].
      destruct (decide ((key y).1 < (key x).1 ∨
                        (key y).1 = (key x).1 ∧ (key y).2 < (key x).2)%Z)
        as [Hd|Hd]; [apply Hspec in Hd; congruence|lia]. }
    constructor; [by constructor|].
    constructor; [done|]. eapply Forall_impl; [exact Hy|].
    intros z Hz. unfold le_key in *. lia.
Qed.

Lemma sorted_sorted l : StronglySorted (le_key key) (sorted lt_pair key l).
Proof.
  induction l as [|x l IH]; [constructor|].
  cbn [sorted foldr]. by apply insert_asc_sorted.
Qed.
End AscendingPairs.

(** A [Counter] lists the distinct elements in the order of their first
    occurrence, each with the number of its occurrences. *)
Lemma counter_incr_keys ch c :
  counter_keys (counter_incr ch c)
  = if decide (ch ∈ counter_keys c) then counter_keys c
    else counter_keys c ++ [ch].
Proof.
  unfold counter_keys. induction c as [|[k v] c IH].
  - cbn. destruct (decide _) as [Hin|_]; [|done]. by apply elem_of_nil in Hin.
  - cbn [counter_incr]. rewrite !fmap_cons. cbn [fst].
    case_bool_decide as Hk.
    + subst k. rewrite fmap_cons. cbn [fst].
      rewrite decide_True; [done|left].
    + rewrite fmap_cons, IH. cbn [fst].
      destruct (decide (ch ∈ c.*1)) as [Hin|Hin].
      * rewrite decide_True; [done|by right].
      * rewrite decide_False; [done|].
        rewrite not_elem_of_cons. split; [congruence|done].
Qed.

Lemma counter_keys_fold l : ∀ c,
  counter_keys (fold_left (λ c ch, counter_incr ch c) l c)
  = counter_keys c
    ++ filter (λ x, x ∉ counter_keys c) (first_occurrences l).
Proof.
  induction l as [|ch l IH]; intros c.
  - cbn. by rewrite app_nil_r.
  - cbn [fold_left first_occurrences]. rewrite IH, counter_incr_keys.
    rewrite filter_cons, !list_filter_filter.
    destruct (decide (ch ∈ counter_keys c)) as [Hin|Hin].
    + rewrite decide_False by tauto. f_equal.
      apply list_filter_iff. intros x. split; [|tauto].
      intros Hx. split; [done|]. by intros ->.
    + rewrite decide_True by done. rewrite <- app_assoc. cbn [app].
      do 2 f_equal. apply list_filter_iff. intros x.
      rewrite not_elem_of_app, list_elem_of_singleton. tauto.
Qed.

Lemma counter_of_keys l : counter_keys (counter_of l) = first_occurrences l.
Proof.
  unfold counter_of. rewrite counter_keys_fold. cbn [counter_keys fmap list_fmap app].
  induction (first_occurrences l) as [|x xs IH]; [done|].
  rewrite filter_cons_True by apply not_elem_of_nil. by rewrite IH.
Qed.

Lemma counter_incr_get ch c x :
  counter_get (counter_incr ch c) x
  = if decide (x = ch) then S (counter_get c x) else counter_get c x.
Proof.
  induction c as [|[k v] c IH].
  - cbn. case_bool_decide; destruct (decide (x = ch)); congruence.
  - cbn [counter_incr]. case_bool_decide as Hk.
    + subst k. cbn [counter_get].
      case_bool_decide; destruct (decide (x = ch)); congruence.
    + cbn [counter_get]. rewrite IH.
      case_bool_decide; destruct (decide (x = ch)); congruence.
Qed.

Lemma counter_get_fold l x : ∀ c,
  counter_get (fold_left (λ c ch, counter_incr ch c) l c) x
  = counter_get c x + occurrences x l.
Proof.
  unfold occurrences. induction l as [|ch l IH]; intros c.
  - cbn. lia.
  - cbn [fold_left]. rewrite IH, counter_incr_get, filter_cons.
    destruct (decide (x = ch)) as [->|Hne].
    + rewrite decide_True by done. simpl. lia.
    + rewrite decide_False by congruence. done.
Qed.

Lemma counter_of_get l x : counter_get (counter_of l) x = occurrences x l.
Proof. unfold counter_of. by rewrite counter_get_fold. Qed.

Lemma first_occurrences_NoDup l : NoDup (first_occurrences l).
Proof.
  induction l as [|c l IH]; [constructor|].
  cbn [first_occurrences]. constructor; [|by apply NoDup_filter].
  rewrite list_elem_of_filter. tauto.
Qed.

Lemma counter_get_item (c : Counter) k v :
  NoDup c.*1 → (k, v) ∈ c → counter_get c k = v.
Proof.
  induction c as [|[k' v'] c IH]; intros Hnd Hin.
  - by apply elem_of_nil in Hin.
  - rewrite fmap_cons in Hnd. apply NoDup_cons in Hnd as [Hk' Hnd].
    cbn [counter_get]. apply elem_of_cons in Hin as [[= -> ->]|Hin].
    + by rewrite bool_decide_eq_true_2.
    + rewrite bool_decide_eq_false_2; [by apply IH|].
      intros ->. apply Hk'. cbn [fst].
      apply list_elem_of_fmap. by exists (k, v).
Qed.

Lemma counter_of_items l :
  Forall (λ kv, kv.2 = occurrences kv.1 l) (counter_of l).
Proof.
  apply Forall_forall. intros [k v] Hin. cbn [fst snd].
  rewrite <- counter_of_get. symmetry. apply counter_get_item; [|done].
  change (NoDup (counter_keys (counter_of l))).
  rewrite counter_of_keys. apply first_occurrences_NoDup.
Qed.

(** The high-frequency table has no more rows than asked for, and no more
    than there are distinct unknown characters. *)
Lemma top_rows_length rep n :
  (Z.of_nat (length (top_rows rep n)) ≤ Z.max 0 n)%Z ∧
  length (top_rows rep n) ≤ length (counter_keys (unknown_freq rep)).
Proof.
  unfold top_rows, most_common, counter_keys.
  rewrite length_take, sorted_reverse_length, length_fmap. lia.
Qed.

(** The unique-OOV string holds the distinct unknown characters in
    descending order of their number of occurrences, characters that occur
    equally often in ascending order of code point. *)
Theorem unique_oov_canonical text inventory han_only :
  let unknown :=
    filter (λ ch, ch ∉ inventory) (iter_text_chars text han_only) in
  let rep := coverage_report text inventory han_only in
  unique_oov rep ≡ₚ first_occurrences unknown ∧
  StronglySorted
    (λ a b, occurrences b unknown < occurrences a unknown ∨
            occurrences a unknown = occurrences b unknown ∧ (a ≤ b)%Z)
    (unique_oov rep).
Proof.
  cbv zeta. unfold unique_oov, coverage_report. cbn [unknown_freq].
  split.
  - rewrite sorted_perm. by rewrite counter_of_keys.
  - eapply StronglySorted_weaken; [|apply sorted_sorted].
    intros a b. unfold le_key. cbn [fst snd]. rewrite !counter_of_get. lia.
Qed.

(** The rows of the high-frequency table, whole: the first
    [top_unknown] of the distinct unknown characters with their numbers of
    occurrences, in descending order of that number, characters that occur
    equally often in the order of their first occurrence in the text. *)
Theorem top_rows_stable text inventory han_only top_unknown :
  let unknown :=
    filter (λ ch, ch ∉ inventory) (iter_text_chars text han_only) in
  let rep := coverage_report text inventory han_only in
  ∃ rows,
    top_rows rep top_unknown = take (Z.to_nat top_unknown) rows ∧
    rows ≡ₚ unknown_freq rep ∧
    StronglySorted (λ a b, b.2 ≤ a.2) rows ∧
    (∀ k, filter (λ kv, kv.2 = k) rows
          = filter (λ kv, kv.2 = k) (unknown_freq rep)) ∧
    (unknown_freq rep).*1 = first_occurrences unknown ∧
    Forall (λ kv, kv.2 = occurrences kv.1 unknown) (unknown_freq rep).
Proof.
  cbv zeta. unfold top_rows, most_common, coverage_report.
  cbn [unknown_freq].
  eexists. split; [reflexivity|].
  split; [apply sorted_reverse_perm|].
  split; [apply (sorted_reverse_sorted snd)|].
  split; [intros k; apply (sorted_reverse_stable snd)|].
  split; [apply counter_of_keys|apply counter_of_items].
Qed.

(** C3: the text 甲乙 (U+7532, U+4E59) against an empty inventory, with
    [top_unknown = 1].  Both characters occur once.  The unique-OOV string
    puts U+4E59 first, the lower code point; the high-frequency table lists
    U+7532, the character that occurs first in the text: [most_common]
    keeps elements of equal count in the order they were first counted. *)
Theorem top_rows_tie_follows_text_order :
  (λ lb : string * Block, block_oov lb.2) <$>
    (build_report [0x7532; 0x4E59]%Z [("inv", ∅)] false 1 true false).1
  = [Some ([0x4E59; 0x7532]%Z, [(0x7532%Z, 1)], [(0x4E59%Z, 1)])] ∧
  (top_rows (coverage_report [0x7532; 0x4E59]%Z ∅ true) 1).*1
  ≠ spec_top (coverage_report [0x7532; 0x4E59]%Z ∅ true) 1.
Proof. split; [vm_compute; reflexivity|vm_compute; discriminate]. Qed.

(** ** The specification's scenarios *)

(** Inventory 一二三, text 一二三四. *)
Example scenario_three_of_four :
  let r := coverage_report [0x4E00; 0x4E8C; 0x4E09; 0x56DB]%Z
             (list_to_set [0x4E00; 0x4E8C; 0x4E09]%Z) true in
  (total_chars r, known_chars r, unknown_chars r, coverage_pct r,
   unknown_freq r)
  = (4, 3, 1, 75%float, [(0x56DB%Z, 1)]).
Proof. vm_compute. reflexivity. Qed.

Example scenario_empty_text :
  let r := coverage_report [] {[0x4E00%Z]} true in
  (total_chars r, known_chars r, unknown_chars r, coverage_pct r)
  = (0, 0, 0, 100%float).
Proof. vm_compute. reflexivity. Qed.

(** Inventories 甲 and 乙, text 甲乙丙, with the union asked for. *)
Example scenario_union :
  (λ b, let r := block_report b in
        (total_chars r, known_chars r, unknown_chars r, coverage_pct r,
         unknown_freq r)) <$>
    (build_report [0x7532; 0x4E59; 0x4E19]%Z
       [("A", {[0x7532%Z]}); ("B", {[0x4E59%Z]})] true 15 true false).2
  = Some (3, 2, 1, 0x1.0aaaaaaaaaaaap+6%float, [(0x4E19%Z, 1)]).
Proof. vm_compute. reflexivity. Qed.

(** Text 甲乙, line-feed, 丙, inventory 甲. *)
Example scenario_per_line :
  per_line_breakdown [0x7532; 0x4E59; 0x0A; 0x4E19]%Z {[0x7532%Z]} true
  = [(1, 2, 1, 50%float, [0x7532; 0x4E59]%Z); (2, 1, 0, 0%float, [0x4E19%Z])].
Proof. vm_compute. reflexivity. Qed.

(** A line-feed at the end of the text ends the last line and starts no
    new one; CR LF is one boundary; an empty line is a record of total 0
    and percentage 100.0. *)
Example per_line_boundaries :
  per_line_breakdown [0x7532; 0x0D; 0x0A; 0x0A; 0x4E59; 0x0A]%Z ∅ true
  = [(1, 1, 0, 0%float, [0x7532%Z]); (2, 0, 0, 100%float, []);
     (3, 1, 0, 0%float, [0x4E59%Z])].
Proof. vm_compute. reflexivity. Qed.

(** ** Further invariants of the data model *)

(** The counted characters are the text's characters that are not
    whitespace and, in Han-only mode, are Han. *)
Theorem iter_text_chars_filter text han_only :
  iter_text_chars text han_only
  = filter (λ ch, isspace ch = false ∧
                  (han_only = true → is_han_cp ch = true)) text.
Proof.
  induction text as [|ch text IH]; [done|].
  cbn [iter_text_chars]. rewrite filter_cons, IH.
  destruct han_only, (is_han_cp ch) eqn:Hhan; cbn [andb negb];
    destruct (isspace ch) eqn:Hsp;
    try (rewrite bool_decide_eq_true_2 by by apply strip_single);
    try (rewrite bool_decide_eq_false_2
           by (rewrite strip_single; congruence));
    destruct (decide _) as [Hd|Hd]; try done;
    try (destruct Hd as [Hd1 Hd2]; try discriminate;
         specialize (Hd2 eq_refl); discriminate);
    exfalso; apply Hd; split; (done || discriminate).
Qed.

(** An inventory holds exactly the Han characters of its file. *)
Theorem load_inventory_han_only data c :
  c ∈ load_inventory data ↔ c ∈ data ∧ is_han_cp c = true.
Proof.
  unfold load_inventory.
  rewrite elem_of_list_to_set, list_elem_of_filter. tauto.
Qed.

(** ** Whitespace, line boundaries and the Han ranges *)

Lemma isspace_bound c : isspace c = true → (c ≤ 0x3000)%Z.
Proof.
  unfold isspace.
  rewrite !orb_true_iff, !andb_true_iff, !Z.leb_le, !Z.eqb_eq. lia.
Qed.

Lemma is_han_cp_bound c : is_han_cp c = true → (0x3400 ≤ c)%Z.
Proof.
  intros Hc. apply han_scan_spec in Hc as (r & Hr & Hin).
  assert (Hlow : Forall (λ r, (0x3400 ≤ r.1)%Z) HAN_RANGES).
  { unfold HAN_RANGES. repeat constructor; simpl; lia. }
  rewrite Forall_forall in Hlow. specialize (Hlow r Hr).
  unfold in_range in Hin. lia.
Qed.

Lemma whitespace_not_han c : isspace c = true → is_han_cp c = false.
Proof.
  intros Hsp. apply isspace_bound in Hsp.
  destruct (is_han_cp c) eqn:Hhan; [|done].
  apply is_han_cp_bound in Hhan. lia.
Qed.

Lemma linebreak_is_space c : is_linebreak c = true → isspace c = true.
Proof.
  unfold is_linebreak, isspace.
  rewrite !orb_true_iff, !andb_true_iff, !Z.leb_le, !Z.eqb_eq. lia.
Qed.

Lemma iter_text_chars_space c rest han_only :
  isspace c = true →
  iter_text_chars (c :: rest) han_only = iter_text_chars rest han_only.
Proof.
  intros Hsp. cbn [iter_text_chars].
  rewrite (bool_decide_eq_true_2 (strip [c] = [])) by by apply strip_single.
  by destruct (han_only && negb (is_han_cp c)).
Qed.

Lemma iter_text_chars_app text1 text2 han_only :
  iter_text_chars (text1 ++ text2) han_only
  = iter_text_chars text1 han_only ++ iter_text_chars text2 han_only.
Proof.
  induction text1 as [|ch text1 IH]; [done|].
  cbn [app iter_text_chars]. rewrite IH.
  destruct (han_only && negb (is_han_cp ch)); [done|].
  by case_bool_decide.
Qed.

Lemma iter_text_chars_rev text han_only :
  iter_text_chars (rev text) han_only = rev (iter_text_chars text han_only).
Proof.
  induction text as [|ch text IH]; [done|].
  cbn [rev]. rewrite iter_text_chars_app, IH. cbn [iter_text_chars].
  destruct (han_only && negb (is_han_cp ch)); [by rewrite app_nil_r|].
  case_bool_decide; [by rewrite app_nil_r|done].
Qed.

(** ** The per-line records against the whole-text report *)

(** The lines of a text hold its counted characters, in order: what
    [splitlines] removes is whitespace. *)
Lemma iter_concat_splitlines_from han_only n : ∀ s cur,
  length s ≤ n →
  iter_text_chars (concat (splitlines_from cur s)) han_only
  = iter_text_chars (rev cur ++ s) han_only.
Proof.
  induction n as [|n IH]; intros s cur Hlen.
  - destruct s; [|simpl in Hlen; lia].
    destruct cur; cbn [splitlines_from concat]; by rewrite ?app_nil_r.
  - destruct s as [|c rest].
    { destruct cur; cbn [splitlines_from concat]; by rewrite ?app_nil_r. }
    simpl in Hlen. cbn [splitlines_from].
    destruct (is_linebreak c) eqn:Hb.
    + apply linebreak_is_space in Hb.
      cbn [concat]. rewrite !iter_text_chars_app. f_equal.
      rewrite iter_text_chars_space by done.
      case_bool_decide; [|by rewrite IH by lia].
      destruct rest as [|c' rest']; [by rewrite IH by lia|].
      case_bool_decide as Hlf; [|by rewrite IH by lia].
      subst c'. rewrite IH by (simpl in Hlen; lia). cbn [rev app].
      by rewrite (iter_text_chars_space LF).
    + rewrite IH by lia. cbn [rev]. by rewrite <- app_assoc.
Qed.

Lemma iter_concat_splitlines text han_only :
  iter_text_chars (concat (splitlines text)) han_only
  = iter_text_chars text han_only.
Proof. apply (iter_concat_splitlines_from han_only (length text)). lia. Qed.

Lemma line_records_sums inventory han_only lines : ∀ n,
  let recs :=
    (λ il, line_record inventory han_only il.1 il.2) <$> enumerate n lines in
  sum_list (line_total <$> recs)
  = length (iter_text_chars (concat lines) han_only) ∧
  sum_list (line_known <$> recs)
  = length (filter (λ ch, ch ∈ inventory)
              (iter_text_chars (concat lines) han_only)).
Proof.
  cbv zeta. induction lines as [|line lines IH]; intros n; [done|].
  destruct (IH (S n)) as [IHt IHk].
  destruct (line_record_fields inventory han_only n line)
    as (_ & _ & Htot & Hkn & _).
  cbn [enumerate fmap list_fmap fst snd concat].
  rewrite iter_text_chars_app, filter_app, !length_app.
  split.
  - change (sum_list (?x :: ?l)) with (x + sum_list l).
    by rewrite Htot, <- IHt.
  - change (sum_list (?x :: ?l)) with (x + sum_list l).
    by rewrite Hkn, <- IHk.
Qed.

(** The per-line records account for every counted character once: their
    totals add up to the report's total and their known counts to the
    report's known count. *)
Theorem per_line_sums text inventory han_only :
  sum_list (line_total <$> per_line_breakdown text inventory han_only)
  = total_chars (coverage_report text inventory han_only) ∧
  sum_list (line_known <$> per_line_breakdown text inventory han_only)
  = known_chars (coverage_report text inventory han_only).
Proof.
  unfold per_line_breakdown, coverage_report. cbn [total_chars known_chars].
  destruct (line_records_sums inventory han_only (splitlines text) 1)
    as [Ht Hk].
  rewrite iter_concat_splitlines in Ht, Hk. by split.
Qed.

(** ** More on the coverage analyzer *)

(** A report on a text in two parts is the sum of the parts' reports:
    the three counts add up, and so does every character's frequency. *)
Theorem coverage_report_app text1 text2 inventory han_only :
  let r := coverage_report (text1 ++ text2) inventory han_only in
  let r1 := coverage_report text1 inventory han_only in
  let r2 := coverage_report text2 inventory han_only in
  total_chars r = total_chars r1 + total_chars r2 ∧
  known_chars r = known_chars r1 + known_chars r2 ∧
  unknown_chars r = unknown_chars r1 + unknown_chars r2 ∧
  (∀ ch, counter_get (known_freq r) ch
         = counter_get (known_freq r1) ch + counter_get (known_freq r2) ch) ∧
  (∀ ch, counter_get (unknown_freq r) ch
         = counter_get (unknown_freq r1) ch
           + counter_get (unknown_freq r2) ch).
Proof.
  cbv zeta. unfold coverage_report.
  cbn [total_chars known_chars unknown_chars known_freq unknown_freq].
  rewrite iter_text_chars_app, !filter_app, !length_app.
  repeat split; intros ch; rewrite !counter_of_get; unfold occurrences;
    by rewrite filter_app, length_app.
Qed.

(** Inclusion and exclusion: the characters known to a union and those
    known to the intersection are together as many as those known to the
    two inventories. *)
Theorem known_union_intersection text inv1 inv2 han_only :
  known_chars (coverage_report text (inv1 ∪ inv2) han_only)
  + known_chars (coverage_report text (inv1 ∩ inv2) han_only)
  = known_chars (coverage_report text inv1 han_only)
    + known_chars (coverage_report text inv2 han_only).
Proof.
  unfold coverage_report. cbn [known_chars].
  induction (iter_text_chars text han_only) as [|ch chars IH]; [done|].
  rewrite !filter_cons.
  repeat case_decide; simpl; try lia; exfalso;
    repeat match goal with
    | H : context [_ ∈ _ ∪ _] |- _ => rewrite elem_of_union in H
    | H : context [_ ∈ _ ∩ _] |- _ => rewrite elem_of_intersection in H
    end; tauto.
Qed.

Lemma known_mode_independent text inventory :
  han_inventory inventory →
  filter (λ ch, ch ∈ inventory) (iter_text_chars text false)
  = filter (λ ch, ch ∈ inventory) (iter_text_chars text true).
Proof.
  intros Hhan. induction text as [|ch text IH]; [done|].
  cbn [iter_text_chars andb].
  destruct (is_han_cp ch) eqn:Hch; cbn [negb].
  - case_bool_decide; [done|]. by rewrite !filter_cons, IH.
  - case_bool_decide; [done|]. rewrite filter_cons_False; [done|].
    intros Hin. apply Hhan in Hin. congruence.
Qed.

Lemma load_inventory_han data : han_inventory (load_inventory data).
Proof.
  intros c Hc. unfold load_inventory in Hc.
  apply elem_of_list_to_set, list_elem_of_filter in Hc. tauto.
Qed.

(** Counting all characters instead of Han characters only changes
    nothing about what an inventory loaded from a file knows: the known
    count and the known frequencies stay, only the total and the unknown
    count can grow. *)
Theorem all_chars_keeps_known text data :
  let inventory := load_inventory data in
  known_chars (coverage_report text inventory false)
  = known_chars (coverage_report text inventory true) ∧
  known_freq (coverage_report text inventory false)
  = known_freq (coverage_report text inventory true) ∧
  unknown_chars (coverage_report text inventory true)
  ≤ unknown_chars (coverage_report text inventory false).
Proof.
  cbv zeta.
  pose proof (known_mode_independent text _ (load_inventory_han data)) as Hk.
  pose proof (filter_split_length (λ ch, ch ∈ load_inventory data)
                (iter_text_chars text true)) as Ht.
  pose proof (filter_split_length (λ ch, ch ∈ load_inventory data)
                (iter_text_chars text false)) as Hf.
  pose proof (iter_text_chars_han_le text) as Hle.
  unfold coverage_report. cbn [known_chars known_freq unknown_chars].
  rewrite Hk in *. repeat split. lia.
Qed.

(** ** The frequency tables *)

Lemma elem_of_first_occurrences x l : x ∈ first_occurrences l ↔ x ∈ l.
Proof.
  induction l as [|c l IH]; [done|].
  cbn [first_occurrences]. rewrite !elem_of_cons, list_elem_of_filter, IH.
  destruct (decide (x = c)); tauto.
Qed.

Lemma occurrences_filter (P : Z → Prop) `{!∀ x, Decision (P x)} k l :
  P k → occurrences k (filter P l) = occurrences k l.
Proof.
  intros HP. unfold occurrences. rewrite list_filter_filter. f_equal.
  apply list_filter_iff. intros x. split; [tauto|]. by intros ->.
Qed.

Lemma occurrences_pos k l : k ∈ l → 1 ≤ occurrences k l.
Proof.
  intros Hk. unfold occurrences.
  assert (Hin : k ∈ filter (λ x, x = k) l) by by apply list_elem_of_filter.
  destruct (filter (λ x, x = k) l); [by apply elem_of_nil in Hin|simpl; lia].
Qed.

(** The [Counter] of the characters of [l] that satisfy [P]. *)
Lemma counter_of_filter (P : Z → Prop) `{!∀ x, Decision (P x)} l :
  NoDup (counter_of (filter P l)).*1 ∧
  Forall (λ kv, P kv.1 ∧ kv.1 ∈ l ∧ 1 ≤ kv.2 ∧ kv.2 = occurrences kv.1 l)
    (counter_of (filter P l)) ∧
  (∀ ch, ch ∈ l → P ch → ch ∈ (counter_of (filter P l)).*1).
Proof.
  assert (Hkeys : (counter_of (filter P l)).*1
                  = first_occurrences (filter P l)) by apply counter_of_keys.
  split; [|split].
  - rewrite Hkeys. apply first_occurrences_NoDup.
  - pose proof (counter_of_items (filter P l)) as Hitems.
    rewrite Forall_forall in *. intros [k v] Hin. cbn [fst snd].
    assert (Hk : k ∈ filter P l).
    { apply elem_of_first_occurrences. rewrite <- Hkeys.
      apply list_elem_of_fmap. by exists (k, v). }
    apply list_elem_of_filter in Hk as [HP Hk].
    specialize (Hitems _ Hin). cbn [fst snd] in Hitems.
    rewrite occurrences_filter in Hitems by done.
    repeat split; try done. rewrite Hitems. by apply occurrences_pos.
  - intros ch Hch HP. rewrite Hkeys. apply elem_of_first_occurrences.
    by apply list_elem_of_filter.
Qed.

(** The two frequency tables split the counted characters between them:
    no character is listed twice, the known table holds characters of the
    inventory, the unknown table characters outside it, each with the
    number of times it is counted in the text (at least once), and every
    counted character is in the table of its side. *)
Theorem freq_tables_partition text inventory han_only :
  let chars := iter_text_chars text han_only in
  let r := coverage_report text inventory han_only in
  NoDup (known_freq r).*1 ∧ NoDup (unknown_freq r).*1 ∧
  Forall (λ kv, kv.1 ∈ inventory ∧ kv.1 ∈ chars ∧ 1 ≤ kv.2 ∧
                kv.2 = occurrences kv.1 chars) (known_freq r) ∧
  Forall (λ kv, (kv.1 ∉ inventory) ∧ kv.1 ∈ chars ∧ 1 ≤ kv.2 ∧
                kv.2 = occurrences kv.1 chars) (unknown_freq r) ∧
  Forall (λ ch, if decide (ch ∈ inventory) then ch ∈ (known_freq r).*1
                else ch ∈ (unknown_freq r).*1) chars.
Proof.
  cbv zeta. unfold coverage_report. cbn [known_freq unknown_freq].
  destruct (counter_of_filter (λ ch, ch ∈ inventory)
              (iter_text_chars text han_only)) as (Hk1 & Hk2 & Hk3).
  destruct (counter_of_filter (λ ch, ch ∉ inventory)
              (iter_text_chars text han_only)) as (Hu1 & Hu2 & Hu3).
  repeat split; try done.
  apply Forall_forall. intros ch Hch. case_decide; auto.
Qed.

(** ** Exact percentages *)

Lemma SFdiv_core_same x :
  SFdiv_core_binary 53 1024 (Zpos x) 0 (Zpos x) 0 = (2 ^ 53, -53, loc_Exact)%Z.
Proof.
  assert (Hdiv : Z.div_eucl (Z.shiftl (Z.pos x) 53) (Z.pos x) = (2 ^ 53, 0)%Z).
  { rewrite Z.shiftl_mul_pow2 by lia.
    pose proof (Z.div_eucl_eq (Z.pos x * 2 ^ 53) (Z.pos x)) as Heq.
    pose proof (Z.mod_pos_bound (Z.pos x * 2 ^ 53) (Z.pos x)) as Hb.
    unfold Z.modulo in Hb.
    destruct (Z.div_eucl (Z.pos x * 2 ^ 53) (Z.pos x)) as [q r].
    specialize (Heq ltac:(lia)). specialize (Hb ltac:(lia)).
    assert (q = 2 ^ 53)%Z by nia. subst q. f_equal. lia. }
  unfold SFdiv_core_binary.
  generalize (Zdigits2 (Z.pos x)). intros d.
  replace (d + 0 - (d + 0))%Z with 0%Z by lia.
  change (Z.min (fexp 53 1024 0) (0 - 0))%Z with (-53)%Z.
  change (0 - 0 - -53)%Z with 53%Z. cbv iota beta.
  change (IntDef.Z.div_eucl (Z.shiftl (Z.pos x) 53) (Z.pos x))
    with (Z.div_eucl (Z.shiftl (Z.pos x) 53) (Z.pos x)).
  rewrite Hdiv. f_equal.
  unfold new_location. by destruct (Z.even (Z.pos x)).
Qed.

(** [n / n] is exactly 1.0, whatever the size of [n]. *)
Lemma int_truediv_same x : int_truediv (Npos x) x = 1%float.
Proof.
  unfold int_truediv, SFdiv. rewrite SFdiv_core_same. vm_compute. reflexivity.
Qed.

Lemma pct_all_known n :
  (int_truediv (N.of_nat (S n)) (Pos.of_nat (S n)) * 100)%float = 100%float.
Proof.
  rewrite <- Pos.of_nat_succ.
  change (N.of_nat (S n)) with (N.pos (Pos.of_succ_nat n)).
  rewrite int_truediv_same. vm_compute. reflexivity.
Qed.

Lemma pct_none_known p : (int_truediv 0 p * 100)%float = 0%float.
Proof. cbn [int_truediv]. vm_compute. reflexivity. Qed.

(** The ends of the scale are exact: a text all of whose counted
    characters are known has coverage 100.0, and a text with counted
    characters none of which is known has coverage 0.0. *)
Theorem coverage_pct_extremes text inventory han_only :
  let r := coverage_report text inventory han_only in
  (unknown_chars r = 0 → coverage_pct r = 100%float) ∧
  (known_chars r = 0 → 0 < total_chars r → coverage_pct r = 0%float).
Proof.
  cbv zeta.
  assert (Hsplit :
    length (filter (λ ch, ch ∈ inventory) (iter_text_chars text han_only))
    + length (filter (λ ch, ch ∉ inventory) (iter_text_chars text han_only))
    = length (iter_text_chars text han_only)) by apply filter_split_length.
  unfold coverage_report.
  cbn [unknown_chars known_chars total_chars coverage_pct].
  split.
  - intros Hu. rewrite Hu, Nat.add_0_r in Hsplit. rewrite Hsplit.
    destruct (length (iter_text_chars text han_only)); [done|].
    apply pct_all_known.
  - intros Hk Htot. rewrite Hk.
    destruct (length (iter_text_chars text han_only)); [lia|].
    apply pct_none_known.
Qed.

(** The same for every line of the per-line breakdown. *)
Theorem line_pct_extremes text inventory han_only :
  Forall (λ r, (line_known r = line_total r → line_pct r = 100%float) ∧
               (line_known r = 0 → 0 < line_total r → line_pct r = 0%float))
    (per_line_breakdown text inventory han_only).
Proof.
  unfold per_line_breakdown. apply Forall_fmap, Forall_forall.
  intros [i line] _. cbn [fst snd compose].
  unfold line_record. cbv zeta.
  destruct (iter_text_chars line han_only) as [|c chars] eqn:Hchars.
  - cbn. split; [done|lia].
  - cbn [length]. unfold line_known, line_total, line_pct. cbn [fst snd].
    split.
    + intros ->. apply pct_all_known.
    + intros -> _. apply pct_none_known.
Qed.

(** ** The two OOV tables *)

Lemma slice_to_spec {A} (n : Z) (xs : list A) :
  slice_to n xs
  = take (if (0 <=? n)%Z then Z.to_nat n else length xs - Z.to_nat (- n)) xs.
Proof. unfold slice_to. by destruct (0 <=? n)%Z. Qed.

(** The rows of the low-frequency table, whole: the distinct unknown
    characters with their numbers of occurrences, in ascending order of
    that number and, for equal numbers, of code point, cut to the first
    [top_unknown], or, when [top_unknown] is negative, to all but the
    last [-top_unknown]. *)
Theorem bottom_rows_sorted text inventory han_only top_unknown :
  let unknown :=
    filter (λ ch, ch ∉ inventory) (iter_text_chars text han_only) in
  let rep := coverage_report text inventory han_only in
  ∃ rows,
    bottom_rows rep top_unknown
    = take (if (0 <=? top_unknown)%Z then Z.to_nat top_unknown
            else length rows - Z.to_nat (- top_unknown)) rows ∧
    rows ≡ₚ unknown_freq rep ∧
    StronglySorted (λ a b, a.2 < b.2 ∨ a.2 = b.2 ∧ (a.1 ≤ b.1)%Z) rows ∧
    rows.*1 ≡ₚ first_occurrences unknown ∧
    Forall (λ kv, kv.2 = occurrences kv.1 unknown) rows.
Proof.
  cbv zeta. unfold bottom_rows, coverage_report. cbn [unknown_freq].
  eexists. split; [apply slice_to_spec|].
  split; [apply sorted_perm|]. split; [|split].
  - eapply StronglySorted_weaken; [|apply sorted_sorted].
    intros a b. unfold le_key. cbn [fst snd]. lia.
  - rewrite sorted_perm. change (?c.*1) with (counter_keys c).
    by rewrite counter_of_keys.
  - rewrite sorted_perm. apply counter_of_items.
Qed.

(** How many rows the two tables have, and when they hold everything.
    For a [top_unknown] that is not negative both have as many rows as
    asked for, or all there are; for a negative one the high-frequency
    table is empty while the low-frequency table drops its last
    [-top_unknown] rows.  When [top_unknown] is at least the number of
    distinct unknown characters, both tables list all of them. *)
Theorem oov_tables_rows rep top_unknown :
  let n := length (unknown_freq rep) in
  length (top_rows rep top_unknown) = Z.to_nat top_unknown `min` n ∧
  length (bottom_rows rep top_unknown)
  = (if (0 <=? top_unknown)%Z then Z.to_nat top_unknown `min` n
     else n - Z.to_nat (- top_unknown)) ∧
  top_rows rep top_unknown ⊆ unknown_freq rep ∧
  bottom_rows rep top_unknown ⊆ unknown_freq rep ∧
  ((Z.of_nat n ≤ top_unknown)%Z →
     top_rows rep top_unknown ≡ₚ unknown_freq rep ∧
     bottom_rows rep top_unknown ≡ₚ unknown_freq rep).
Proof.
  cbv zeta. unfold top_rows, most_common, bottom_rows.
  rewrite slice_to_spec.
  pose proof (sorted_reverse_perm snd (unknown_freq rep)) as Htop.
  pose proof (sorted_perm (λ kv : Z * nat, (Z.of_nat kv.2, kv.1))
                (unknown_freq rep)) as Hbot.
  pose proof (Permutation_length Htop) as Hlt.
  pose proof (Permutation_length Hbot) as Hlb.
  rewrite !length_take, Hlt, Hlb.
  split; [done|]. split; [destruct (0 <=? top_unknown)%Z; lia|].
  split; [|split].
  - intros kv Hkv. rewrite <- Htop. by eapply subseteq_take.
  - intros kv Hkv. rewrite <- Hbot. by eapply subseteq_take.
  - intros Hn. destruct (Z.leb_spec 0 top_unknown) as [_|Hneg]; [|lia].
    rewrite !take_ge by lia. by split.
Qed.

(** ** The blocks of a report *)

Lemma filter_union_length (X Y : gset Z) (l : list Z) :
  length (filter (λ ch, ch ∈ X ∪ Y) l)
  ≤ length (filter (λ ch, ch ∈ X) l) + length (filter (λ ch, ch ∈ Y) l).
Proof.
  induction l as [|ch l IH]; [done|].
  rewrite !filter_cons.
  repeat case_decide; simpl; try lia; exfalso;
    repeat match goal with
    | H : context [_ ∈ _ ∪ _] |- _ => rewrite elem_of_union in H
    end; tauto.
Qed.

Lemma filter_none_length (P : Z → Prop) `{!∀ x, Decision (P x)} l :
  (∀ ch, ¬ P ch) → length (filter P l) = 0.
Proof.
  intros HP. induction l as [|ch l IH]; [done|].
  by rewrite filter_cons_False.
Qed.

Lemma known_union_set_le text (inventories : Inventories) han_only :
  known_chars (coverage_report text (union_set inventories) han_only)
  ≤ sum_list ((λ li, known_chars (coverage_report text li.2 han_only))
                <$> inventories).
Proof.
  unfold coverage_report. cbn [known_chars].
  induction inventories as [|[label inv] inventories IH].
  - rewrite filter_none_length; [done|].
    intros ch. unfold union_set. cbn. apply not_elem_of_empty.
  - rewrite fmap_cons. cbn [fst snd].
    change (sum_list (?x :: ?l)) with (x + sum_list l).
    change (union_set ((label, inv) :: inventories))
      with (inv ∪ union_set inventories).
    etrans; [apply filter_union_length|]. by apply Nat.add_le_mono_l.
Qed.

(** A report has one block per inventory, under the dict's labels and in
    the dict's order.  When it has a union block, the union was asked for
    and there are at least two inventories; the union block has no
    per-line table; it counts the same characters as every other block,
    knows at least as many of them as any single inventory, and at most as
    many as all inventories together. *)
Theorem build_report_blocks text inventories union top_unknown han_only
    per_line :
  let report :=
    build_report text inventories union top_unknown han_only per_line in
  report.1.*1 = inventories.*1 ∧
  (report.2 = None ↔ union = false ∨ length inventories ≤ 1) ∧
  (∀ ub, report.2 = Some ub →
     block_lines ub = None ∧
     Forall (λ lb,
         total_chars (block_report lb.2) = total_chars (block_report ub) ∧
         known_chars (block_report lb.2) ≤ known_chars (block_report ub) ∧
         unknown_chars (block_report ub) ≤ unknown_chars (block_report lb.2))
       report.1 ∧
     known_chars (block_report ub)
     ≤ sum_list ((λ lb, known_chars (block_report lb.2)) <$> report.1)).
Proof.
  cbv zeta. unfold build_report. cbn [fst snd].
  split; [|split].
  - rewrite <- list_fmap_compose. apply list_fmap_ext.
    by intros i [label inv] _.
  - destruct union; cbn [andb]; [case_bool_decide|];
      cbn [fmap option_fmap option_map].
    + split; [done|]. intros [Hu|Hlen]; [done|lia].
    + split; [|done]. intros _. right. lia.
    + split; [|done]. intros _. by left.
  - intros ub Hub.
    destruct (union && bool_decide (1 < length inventories)); [|done].
    cbn [fmap option_fmap option_map] in Hub. injection Hub as <-.
    cbn [block_lines block_report]. split; [done|]. split.
    + apply Forall_fmap, Forall_forall. intros [label inv] Hin.
      cbn [snd block_report compose].
      pose proof (union_set_known_monotone text inventories label inv
                    han_only Hin) as Hk.
      assert (Hsplit : ∀ i,
        known_chars (coverage_report text i han_only)
        + unknown_chars (coverage_report text i han_only)
        = length (iter_text_chars text han_only))
        by (intros i; apply filter_split_length).
      pose proof (Hsplit inv). pose proof (Hsplit (union_set inventories)).
      unfold coverage_report in *. cbn [total_chars known_chars unknown_chars] in *.
      repeat split; [done|lia].
    + rewrite <- list_fmap_compose.
      etrans; [apply known_union_set_le|].
      apply Nat.eq_le_incl. f_equal. apply list_fmap_ext.
      by intros i [label inv] _.
Qed.

(** The report of inventories 甲 and 乙 on the text 甲乙丙, union asked
    for. *)
Lemma build_report_blocks_witness :
  ∃ ub,
    (build_report [0x7532; 0x4E59; 0x4E19]%Z
       [("A", {[0x7532%Z]}); ("B", {[0x4E59%Z]})] true 15 true false).2
    = Some ub ∧
    block_lines ub = None ∧
    known_chars (block_report ub) = 2.
Proof.
  eexists. split; [reflexivity|].
  split.
  - eapply (build_report_blocks [0x7532; 0x4E59; 0x4E19]%Z
              [("A", {[0x7532%Z]}); ("B", {[0x4E59%Z]})] true 15 true false).
    reflexivity.
  - vm_compute. reflexivity.
Defined.

(** ** More on the inventory loader *)

Lemma load_loop_unreadable read_text paths : ∀ d,
  Exists (λ p, read_text p = None) paths →
  load_loop read_text paths d = None.
Proof.
  induction paths as [|p paths IH]; intros d Hex.
  - by apply Exists_nil in Hex.
  - cbn [load_loop].
    destruct (label_loop (length d) d (stem_or_str p) (stem_or_str p) 2)
      as [label|]; [|done].
    cbn [mbind option_bind].
    destruct (read_text p) as [data|] eqn:Hp; [|done].
    cbn [mbind option_bind]. apply IH.
    apply Exists_cons in Hex as [Hex|Hex]; [congruence|done].
Qed.

(** [load_inventories] fails exactly when one of the files cannot be
    read; labels never make it fail. *)
Theorem load_inventories_fails_iff read_text paths :
  load_inventories read_text paths = None
  ↔ Exists (λ p, read_text p = None) paths.
Proof.
  split; [|apply load_loop_unreadable].
  intros Hnone.
  destruct (decide (Exists (λ p, read_text p = None) paths)) as [|Hall];
    [done|].
  apply not_Exists_Forall in Hall; [|intros p; apply _].
  destruct (load_loop_spec read_text paths [] (NoDup_nil_2)) as (d & Hd & _).
  - eapply Forall_impl; [exact Hall|]. intros p Hp. cbn in Hp.
    destruct (read_text p); [by eexists|done].
  - unfold load_inventories in Hnone. congruence.
Qed.

Lemma dict_set_values (Q : gset Z → Prop) d label inv :
  Forall (λ li, Q li.2) d → Q inv → Forall (λ li, Q li.2) (dict_set d label inv).
Proof.
  intros Hd Hinv. induction Hd as [|[k v] d Hv Hd IH]; [by repeat constructor|].
  cbn [dict_set]. case_bool_decide; by constructor.
Qed.

Lemma load_loop_han read_text paths : ∀ d d',
  Forall (λ li, han_inventory li.2) d →
  load_loop read_text paths d = Some d' →
  Forall (λ li, han_inventory li.2) d'.
Proof.
  induction paths as [|p paths IH]; intros d d' Hd Hload.
  - cbn in Hload. by injection Hload as <-.
  - cbn [load_loop] in Hload.
    destruct (label_loop (length d) d (stem_or_str p) (stem_or_str p) 2)
      as [label|]; [|done].
    cbn [mbind option_bind] in Hload.
    destruct (read_text p) as [data|]; [|done].
    cbn [mbind option_bind] in Hload.
    eapply IH; [|exact Hload].
    apply dict_set_values; [done|apply load_inventory_han].
Qed.

Lemma union_set_han (d : Inventories) :
  Forall (λ li, han_inventory li.2) d → han_inventory (union_set d).
Proof.
  intros Hd c Hc. unfold union_set in Hc.
  apply elem_of_union_list in Hc as (inv & Hinv & Hc).
  apply list_elem_of_fmap in Hinv as ([label inv'] & -> & Hin).
  rewrite Forall_forall in Hd. by apply (Hd _ Hin).
Qed.

(** Whatever the files hold, every inventory that [load_inventories]
    returns holds Han characters only, and so does their union; counting
    all characters instead of Han characters only therefore leaves the
    known count of each of them, and of the union, as it is. *)
Theorem loaded_inventories_han read_text paths d :
  load_inventories read_text paths = Some d →
  Forall (λ li, han_inventory li.2) d ∧ han_inventory (union_set d) ∧
  (∀ text inventory, inventory ∈ union_set d :: d.*2 →
     known_chars (coverage_report text inventory false)
     = known_chars (coverage_report text inventory true)).
Proof.
  intros Hload.
  assert (Hd : Forall (λ li, han_inventory li.2) d)
    by (eapply (load_loop_han read_text paths []); [constructor|exact Hload]).
  split; [done|]. split; [by apply union_set_han|].
  intros text inventory Hin. unfold coverage_report. cbn [known_chars].
  rewrite known_mode_independent; [done|].
  apply elem_of_cons in Hin as [->|Hin]; [by apply union_set_han|].
  apply list_elem_of_fmap in Hin as ([label inv'] & -> & Hin).
  rewrite Forall_forall in Hd. by apply (Hd _ Hin).
Qed.

(** One file, holding a Han character, a letter and a space. *)
Lemma loaded_inventories_han_witness :
  Forall (λ li : string * gset Z, han_inventory li.2)
    [("a", load_inventory [0x7532; 0x41; 0x20]%Z)].
Proof.
  apply (loaded_inventories_han (λ _, Some [0x7532; 0x41; 0x20]%Z)
           [ {| stem := "a"; path_str := "a.txt" |} ]).
  vm_compute. reflexivity.
Defined.

Lemma load_loop_distinct read_text paths : ∀ d,
  NoDup (d.*1 ++ (stem_or_str <$> paths)) →
  Forall (λ p, is_Some (read_text p)) paths →
  load_loop read_text paths d
  = Some (d ++ ((λ p, (stem_or_str p,
                       from_option load_inventory ∅ (read_text p)))
                  <$> paths)).
Proof.
  induction paths as [|p paths IH]; intros d Hnd Hread.
  - cbn. by rewrite app_nil_r.
  - apply Forall_cons in Hread as [[data Hdata] Hread].
    rewrite fmap_cons in Hnd.
    assert (Hfresh : stem_or_str p ∉ d.*1).
    { apply NoDup_app in Hnd as (_ & Hdis & _). intros Hin.
      apply (Hdis _ Hin). left. }
    assert (Hloop : label_loop (length d) d (stem_or_str p) (stem_or_str p) 2
                    = Some (stem_or_str p)).
    { destruct (length d); cbn [label_loop]; unfold dict_contains;
        by rewrite (bool_decide_eq_false_2 _ Hfresh). }
    cbn [load_loop]. rewrite Hloop. cbn [mbind option_bind]. rewrite Hdata.
    cbn [mbind option_bind from_option]. rewrite dict_set_fresh by done.
    rewrite IH; [|rewrite fmap_app; cbn [fmap list_fmap fst];
                  by rewrite <- app_assoc|done].
    rewrite fmap_cons, Hdata. cbn [from_option]. by rewrite <- app_assoc.
Qed.

(** Files with pairwise distinct stems keep their stems: the dict holds,
    in the order of the files, each file's stem with the file's
    inventory, and no suffix is added. *)
Theorem load_inventories_distinct_stems read_text paths :
  Forall (λ p, stem p ≠ "" ∧ is_Some (read_text p)) paths →
  NoDup (stem <$> paths) →
  load_inventories read_text paths
  = Some ((λ p, (stem p, from_option load_inventory ∅ (read_text p)))
            <$> paths).
Proof.
  intros Hpaths Hnd.
  assert (Hstem : stem_or_str <$> paths = stem <$> paths).
  { apply list_fmap_ext. intros i p Hp.
    rewrite Forall_forall in Hpaths.
    destruct (Hpaths p) as [Hne _]; [by eapply list_elem_of_lookup_2|].
    unfold stem_or_str. by rewrite bool_decide_eq_false_2. }
  unfold load_inventories. rewrite load_loop_distinct.
  - cbn [app]. f_equal. apply list_fmap_ext. intros i p Hp.
    rewrite Forall_forall in Hpaths.
    destruct (Hpaths p) as [Hne _]; [by eapply list_elem_of_lookup_2|].
    unfold stem_or_str. by rewrite bool_decide_eq_false_2.
  - cbn [fmap list_fmap app]. by rewrite Hstem.
  - eapply Forall_impl; [exact Hpaths|]. by intros p [_ ?].
Qed.

(** Two files of different stems. *)
Lemma load_inventories_distinct_stems_witness :
  load_inventories (λ _, Some [0x7532%Z])
    [ {| stem := "a"; path_str := "a.txt" |};
      {| stem := "b"; path_str := "b.txt" |} ]
  = Some [("a", load_inventory [0x7532%Z]); ("b", load_inventory [0x7532%Z])].
Proof.
  apply (load_inventories_distinct_stems (λ _, Some [0x7532%Z])).
  - repeat (apply Forall_cons; split; [split; [discriminate|by eexists]|]).
    by apply Forall_nil.
  - apply NoDup_cons. split; [|apply NoDup_singleton].
    rewrite list_elem_of_singleton. discriminate.
Defined.

(** ** Pretty printing *)

Lemma uint_chars_digits u : Forall is_digit (uint_chars u).
Proof.
  induction u; cbn [uint_chars]; constructor; try done;
    unfold is_digit; lia.
Qed.

Lemma chars_uint_chars u : chars_uint (uint_chars u) = u.
Proof. induction u; cbn; by f_equal. Qed.

Lemma chars_hex_uint_chars u : chars_hex_uint (hex_uint_chars u) = u.
Proof. induction u; cbn; by f_equal. Qed.

Lemma read_decimal_decimal n : read_decimal (decimal n) = n.
Proof.
  unfold read_decimal, decimal. rewrite chars_uint_chars.
  apply DecimalN.Unsigned.of_to.
Qed.

Lemma filter_rev {A} (P : A → Prop) `{!∀ x, Decision (P x)} (l : list A) :
  filter P (rev l) = rev (filter P l).
Proof.
  induction l as [|x l IH]; [done|].
  cbn [rev]. rewrite filter_app, IH, !filter_cons, filter_nil.
  by case_decide; [|rewrite app_nil_r].
Qed.

Lemma filter_all {A} (P : A → Prop) `{!∀ x, Decision (P x)} (l : list A) :
  Forall P l → filter P l = l.
Proof.
  induction 1 as [|x l Hx _ IH]; [done|].
  by rewrite filter_cons_True, IH.
Qed.

Lemma group_thousands_rev_short ds :
  length ds ≤ 3 → group_thousands_rev ds = ds.
Proof.
  destruct ds as [|a [|b [|c [|d rest]]]]; try done.
  simpl. lia.
Qed.

(** Grouping adds commas and nothing else: one after every third
    character, counted from the start of the reversed digits, as long as
    another digit follows. *)
Lemma group_thousands_rev_spec n : ∀ ds,
  length ds ≤ n → Forall (λ c, c ≠ COMMA) ds →
  filter (λ c, c ≠ COMMA) (group_thousands_rev ds) = ds ∧
  length (group_thousands_rev ds) = length ds + (length ds - 1) / 3 ∧
  (∀ i c, group_thousands_rev ds !! i = Some c →
     (c = COMMA ↔ i `mod` 4 = 3)).
Proof.
  assert (Hshort : ∀ ds, length ds ≤ 3 → Forall (λ c, c ≠ COMMA) ds →
    filter (λ c, c ≠ COMMA) (group_thousands_rev ds) = ds ∧
    length (group_thousands_rev ds) = length ds + (length ds - 1) / 3 ∧
    (∀ i c, group_thousands_rev ds !! i = Some c →
       (c = COMMA ↔ i `mod` 4 = 3))).
  { intros ds Hlen Hds. rewrite group_thousands_rev_short by done.
    split; [by apply filter_all|]. split.
    - rewrite Nat.div_small by lia. lia.
    - intros i x Hx. apply list_elem_of_lookup_2 in Hx as Hin.
      rewrite Forall_forall in Hds. specialize (Hds _ Hin).
      apply lookup_lt_Some in Hx.
      split; [done|]. intros Hmod. rewrite Nat.mod_small in Hmod by lia. lia. }
  induction n as [|n IH]; intros ds Hlen Hds; [apply Hshort; [lia|done]|].
  destruct ds as [|a [|b [|c [|d rest]]]];
    try (apply Hshort; [simpl; lia|done]).
  change (group_thousands_rev (a :: b :: c :: d :: rest))
    with (a :: b :: c :: COMMA :: group_thousands_rev (d :: rest)).
  apply Forall_cons in Hds as [Ha Hds].
  apply Forall_cons in Hds as [Hb Hds].
  apply Forall_cons in Hds as [Hc Hds].
  simpl in Hlen.
  destruct (IH (d :: rest)) as (IHf & IHl & IHp); [simpl; lia|done|].
  split; [|split].
  - rewrite !filter_cons_True by done.
    rewrite filter_cons_False by (intros Hne; by apply Hne).
    by rewrite IHf.
  - cbn [length] in *. rewrite IHl.
    replace (S (S (S (S (length rest)))) - 1)
      with (1 * 3 + (S (length rest) - 1)) by lia.
    rewrite Nat.div_add_l by lia. lia.
  - intros i x Hx.
    destruct i as [|[|[|[|i]]]]; cbn in Hx.
    + injection Hx as <-. split; [done|]. cbn. lia.
    + injection Hx as <-. split; [done|]. cbn. lia.
    + injection Hx as <-. split; [done|]. cbn. lia.
    + injection Hx as <-. split; [done|]. cbn. lia.
    + rewrite (IHp i x Hx).
      replace (S (S (S (S i)))) with (i + 1 * 4) by lia.
      by rewrite Nat.Div0.mod_add.
Qed.

Lemma decimal_no_comma n : Forall (λ c, c ≠ COMMA) (decimal n).
Proof.
  eapply Forall_impl; [apply uint_chars_digits|].
  intros c Hc ->. unfold is_digit, COMMA in Hc. lia.
Qed.

Lemma human_int_N n :
  human_int (Z.of_N n) = rev (group_thousands_rev (rev (decimal n))).
Proof.
  unfold human_int, format_thousands.
  rewrite (proj2 (Z.ltb_ge _ _)) by lia. by rewrite Zabs2N.id.
Qed.

Lemma human_int_filter z :
  filter (λ c, c ≠ COMMA) (human_int z)
  = (if (z <? 0)%Z then [0x2D%Z] else []) ++ decimal (Z.abs_N z).
Proof.
  unfold human_int, format_thousands. rewrite filter_app, filter_rev.
  destruct (group_thousands_rev_spec (length (rev (decimal (Z.abs_N z))))
              (rev (decimal (Z.abs_N z)))) as (Hf & _); [done| |].
  { apply Forall_rev, decimal_no_comma. }
  rewrite Hf, rev_involutive. f_equal.
  destruct (z <? 0)%Z; [|done]. by rewrite filter_cons_True.
Qed.

(** The thousands separators are cosmetic: without the commas,
    [human_int n] is [str(n)]; what is printed for a count reads back as
    that count; and two different numbers are never printed alike. *)
Theorem human_int_digits :
  (∀ z, filter (λ c, c ≠ COMMA) (human_int z)
        = (if (z <? 0)%Z then [0x2D%Z] else []) ++ decimal (Z.abs_N z)) ∧
  (∀ n, read_decimal (filter (λ c, c ≠ COMMA) (human_int (Z.of_N n))) = n) ∧
  (∀ z1 z2, human_int z1 = human_int z2 → z1 = z2).
Proof.
  split; [apply human_int_filter|]. split.
  - intros n. rewrite human_int_filter.
    rewrite (proj2 (Z.ltb_ge _ _)) by lia.
    rewrite Zabs2N.id. apply read_decimal_decimal.
  - intros z1 z2 Heq.
    apply (f_equal (filter (λ c, c ≠ COMMA))) in Heq.
    rewrite !human_int_filter in Heq.
    assert (Hhead : ∀ n rest, decimal n ≠ 0x2D%Z :: rest).
    { intros n rest Hn. pose proof (uint_chars_digits (N.to_uint n)) as Hd.
      fold (decimal n) in Hd. rewrite Hn in Hd.
      apply Forall_cons in Hd as [Hd _]. unfold is_digit in Hd. lia. }
    destruct (Z.ltb_spec z1 0), (Z.ltb_spec z2 0); cbn [app] in Heq.
    + injection Heq as Heq. apply (f_equal read_decimal) in Heq.
      rewrite !read_decimal_decimal in Heq. lia.
    + symmetry in Heq. by apply Hhead in Heq.
    + by apply Hhead in Heq.
    + apply (f_equal read_decimal) in Heq.
      rewrite !read_decimal_decimal in Heq. lia.
Qed.

(** Where the commas are: [human_int] of a count has a comma at every
    fourth place counted from its end, and nowhere else, and none in
    front: with [d] digits it has [d + (d - 1) / 3] characters. *)
Theorem human_int_commas n :
  length (human_int (Z.of_N n))
  = length (decimal n) + (length (decimal n) - 1) / 3 ∧
  (∀ i c, rev (human_int (Z.of_N n)) !! i = Some c →
     (c = COMMA ↔ i `mod` 4 = 3)).
Proof.
  rewrite human_int_N, rev_involutive, length_rev.
  destruct (group_thousands_rev_spec (length (rev (decimal n)))
              (rev (decimal n))) as (_ & Hl & Hp); [done| |].
  { apply Forall_rev, decimal_no_comma. }
  rewrite length_rev in Hl. by split.
Qed.

(** ** The code column *)

Lemma read_hex_zeros k s :
  read_hex (replicate k 0x30%Z ++ s) = read_hex s.
Proof. induction k as [|k IH]; [done|]. cbn. exact IH. Qed.

Lemma read_hex_upper n : read_hex (hex_upper n) = n.
Proof.
  unfold read_hex, hex_upper. rewrite chars_hex_uint_chars.
  apply HexadecimalN.Unsigned.of_to.
Qed.

Lemma hex_uint_chars_digits u : Forall is_hex_upper (hex_uint_chars u).
Proof.
  induction u; cbn [hex_uint_chars]; constructor; try done;
    unfold is_hex_upper; lia.
Qed.

(** On upper-case hexadecimal digits the reader takes every character. *)
Lemma hex_uint_chars_chars s :
  Forall is_hex_upper s → hex_uint_chars (chars_hex_uint s) = s.
Proof.
  induction 1 as [|c s Hc _ IH]; [done|].
  assert (Hcases : c ∈ [0x30; 0x31; 0x32; 0x33; 0x34; 0x35; 0x36; 0x37; 0x38;
                        0x39; 0x41; 0x42; 0x43; 0x44; 0x45; 0x46]%Z).
  { unfold is_hex_upper in Hc. rewrite !elem_of_cons. lia. }
  rewrite !elem_of_cons in Hcases.
  repeat destruct Hcases as [->|Hcases];
    try (cbn; by rewrite IH).
  by apply elem_of_nil in Hcases.
Qed.

(** A numeral printed by [format(n, "X")] has no zero in front, unless it
    is the single digit 0. *)
Lemma hex_upper_no_leading_zero n :
  1 < length (hex_upper n) → head (hex_upper n) ≠ Some 0x30%Z.
Proof.
  unfold hex_upper.
  assert (Hnorm : N.to_hex_uint n = Hexadecimal.unorm (N.to_hex_uint n)).
  { rewrite <- (HexadecimalN.Unsigned.to_of (N.to_hex_uint n)).
    by rewrite HexadecimalN.Unsigned.of_to. }
  assert (Hnz : ∀ u, head (hex_uint_chars (Hexadecimal.nzhead u))
                     ≠ Some 0x30%Z).
  { induction u; cbn; try done. }
  rewrite Hnorm. unfold Hexadecimal.unorm.
  specialize (Hnz (N.to_hex_uint n)).
  destruct (Hexadecimal.nzhead (N.to_hex_uint n)); try done.
  cbn. lia.
Qed.

(** The code column never loses the character.  It is [U+] followed by
    upper-case hexadecimal digits and nothing else: at least four of
    them, more only when the code point needs more (then the first is not
    a zero); the digits read back, all of them, as the code point; and
    different characters get different codes. *)
Theorem code_label_reads_back :
  (∀ ch, ∃ digits,
     code_label ch = [0x55; 0x2B]%Z ++ digits ∧
     4 ≤ length digits ∧
     Forall is_hex_upper digits ∧
     (4 < length digits → head digits ≠ Some 0x30%Z) ∧
     hex_uint_chars (chars_hex_uint digits) = digits ∧
     read_hex digits = Z.to_N ch) ∧
  (∀ ch1 ch2, (0 ≤ ch1)%Z → (0 ≤ ch2)%Z →
     code_label ch1 = code_label ch2 → ch1 = ch2).
Proof.
  assert (Hdigits : ∀ ch,
    Forall is_hex_upper (zero_pad 4 (hex_upper (Z.to_N ch)))).
  { intros ch. unfold zero_pad. apply Forall_app. split.
    - apply Forall_replicate. unfold is_hex_upper. lia.
    - apply hex_uint_chars_digits. }
  assert (Hread : ∀ ch,
    read_hex (zero_pad 4 (hex_upper (Z.to_N ch))) = Z.to_N ch).
  { intros ch. unfold zero_pad. by rewrite read_hex_zeros, read_hex_upper. }
  split.
  - intros ch. exists (zero_pad 4 (hex_upper (Z.to_N ch))).
    split; [done|]. split; [|split; [|split; [|split]]].
    + unfold zero_pad. rewrite length_app, length_replicate. lia.
    + apply Hdigits.
    + unfold zero_pad. rewrite length_app, length_replicate. intros Hlong.
      replace (4 - length (hex_upper (Z.to_N ch))) with 0 by lia.
      cbn [replicate app]. apply hex_upper_no_leading_zero. lia.
    + apply hex_uint_chars_chars, Hdigits.
    + apply Hread.
  - intros ch1 ch2 H1 H2 Heq. unfold code_label in Heq.
    apply app_inv_head in Heq.
    pose proof (Hread ch1) as Hr1. rewrite Heq, Hread in Hr1. lia.
Qed.

(** ** The header of a report *)

Lemma size_union_set_le (invs : list (gset Z)) :
  size (⋃ invs) ≤ sum_list ((λ inv : gset Z, size inv) <$> invs) ∧
  Forall (λ inv, size inv ≤ size (⋃ invs)) invs.
Proof.
  induction invs as [|inv invs [IHs IHf]].
  - split; [|constructor]. cbn. by rewrite size_empty.
  - rewrite union_list_cons, fmap_cons.
    change (sum_list (?x :: ?l)) with (x + sum_list l).
    split.
    + rewrite size_union_alt.
      assert (size (⋃ invs ∖ inv) ≤ size (⋃ invs)).
      { apply subseteq_size. intros x. rewrite elem_of_difference. tauto. }
      lia.
    + constructor; [apply subseteq_size, union_subseteq_l|].
      eapply Forall_impl; [exact IHf|]. intros x Hx. cbn in Hx.
      etrans; [exact Hx|]. apply subseteq_size, union_subseteq_r.
Qed.

(** In the union line of the header, the size of the union is at most
    the raw sum of the inventories' sizes, and at least the size of every
    single inventory listed above it. *)
Theorem inventories_loaded_sizes inventories union :
  let header := inventories_loaded inventories union in
  header.1.*1 = inventories.*1 ∧
  (∀ raw unique, header.2 = Some (raw, unique) →
     unique ≤ raw ∧ Forall (λ ls, ls.2 ≤ unique) header.1).
Proof.
  cbv zeta. unfold inventories_loaded. cbn [fst snd]. split.
  - rewrite <- list_fmap_compose. apply list_fmap_ext. by intros i [l inv] _.
  - intros raw unique Hsome.
    destruct (union && bool_decide (1 < length inventories)); [|done].
    injection Hsome as <- <-.
    destruct (size_union_set_le inventories.*2) as [Hs Hf].
    split; [exact Hs|].
    apply Forall_fmap. rewrite Forall_fmap in Hf.
    eapply Forall_impl; [exact Hf|]. by intros [l inv].
Qed.

(** Two inventories that share one character. *)
Lemma inventories_loaded_sizes_witness :
  ∃ raw unique,
    (inventories_loaded
       [("A", {[0x7532; 0x4E59]}%Z); ("B", {[0x4E59%Z]})] true).2
    = Some (raw, unique) ∧ unique ≤ raw.
Proof.
  eexists _, _. split; [reflexivity|].
  eapply (inventories_loaded_sizes
            [("A", {[0x7532; 0x4E59]}%Z); ("B", {[0x4E59%Z]})] true).
  reflexivity.
Defined.

(** ** From files to report *)

Lemma load_inventories_readable read_text paths :
  Forall (λ p, is_Some (read_text p)) paths →
  is_Some (load_inventories read_text paths).
Proof.
  intros Hread.
  destruct (load_loop_spec read_text paths [] (NoDup_nil_2) Hread)
    as (d & Hd & _).
  by exists d.
Qed.

(** [run_analysis_from_files] fails exactly when an inventory file or the
    input file cannot be read. *)
Theorem run_analysis_fails_iff read_text inventory_paths input_path union
    top_unknown han_only per_line :
  run_analysis_from_files read_text inventory_paths input_path union
    top_unknown han_only per_line = None
  ↔ Exists (λ p, read_text p = None) inventory_paths ∨
    read_text input_path = None.
Proof.
  unfold run_analysis_from_files. split.
  - intros Hnone.
    destruct (decide (Exists (λ p, read_text p = None) inventory_paths))
      as [|Hall]; [by left|right].
    apply not_Exists_Forall in Hall; [|intros p; apply _].
    destruct (load_inventories_readable read_text inventory_paths)
      as [d Hd].
    { eapply Forall_impl; [exact Hall|]. intros p Hp. cbn in Hp.
      destruct (read_text p); [by eexists|done]. }
    rewrite Hd in Hnone. cbn [mbind option_bind] in Hnone.
    by destruct (read_text input_path).
  - intros [Hex|Hin].
    + unfold load_inventories. by rewrite load_loop_unreadable.
    + destruct (load_inventories read_text inventory_paths); [|done].
      cbn [mbind option_bind]. by rewrite Hin.
Qed.

Lemma same_known_reports text inventory :
  han_inventory inventory →
  let r1 := coverage_report text inventory true in
  let r2 := coverage_report text inventory false in
  known_chars r1 = known_chars r2 ∧ known_freq r1 = known_freq r2 ∧
  total_chars r1 ≤ total_chars r2 ∧ unknown_chars r1 ≤ unknown_chars r2.
Proof.
  intros Hhan. cbv zeta.
  pose proof (known_mode_independent text _ Hhan) as Hk.
  assert (Hsplit : ∀ h,
    length (filter (λ ch, ch ∈ inventory) (iter_text_chars text h))
    + length (filter (λ ch, ch ∉ inventory) (iter_text_chars text h))
    = length (iter_text_chars text h)) by (intros h; apply filter_split_length).
  pose proof (Hsplit true) as Ht. pose proof (Hsplit false) as Hf.
  pose proof (iter_text_chars_han_le text) as Hle.
  unfold coverage_report.
  cbn [known_chars known_freq total_chars unknown_chars].
  rewrite Hk in *. repeat split; [done|lia].
Qed.

(** Run on the same files, once counting Han characters only and once
    counting all characters, the analysis gives the same blocks in the
    same order with the same known counts and known frequencies, for
    every inventory and for the union; only totals and unknown counts can
    be larger when all characters are counted. *)
Theorem run_analysis_all_chars read_text inventory_paths input_path union
    top_unknown per_line r1 r2 :
  run_analysis_from_files read_text inventory_paths input_path union
    top_unknown true per_line = Some r1 →
  run_analysis_from_files read_text inventory_paths input_path union
    top_unknown false per_line = Some r2 →
  r1.1.*1 = r2.1.*1 ∧
  Forall2 (λ lb1 lb2, same_known lb1.2 lb2.2) r1.1 r2.1 ∧
  option_Forall2 same_known r1.2 r2.2.
Proof.
  unfold run_analysis_from_files. intros H1 H2.
  destruct (load_inventories read_text inventory_paths) as [d|] eqn:Hd;
    [|done].
  cbn [mbind option_bind] in H1, H2.
  destruct (read_text input_path) as [text|]; [|done].
  cbn [mbind option_bind] in H1, H2.
  injection H1 as <-. injection H2 as <-.
  assert (Hhan : Forall (λ li, han_inventory li.2) d)
    by (eapply (load_loop_han read_text inventory_paths []);
        [constructor|exact Hd]).
  unfold build_report. cbn [fst snd]. split; [|split].
  - rewrite <- !list_fmap_compose. apply list_fmap_ext. by intros i [l inv] _.
  - apply Forall2_fmap, Forall_Forall2_diag.
    eapply Forall_impl; [exact Hhan|]. intros [l inv] Hinv.
    cbn [snd] in *. unfold same_known. cbn [block_report].
    by apply same_known_reports.
  - destruct (union && bool_decide (1 < length d));
      cbn [fmap option_fmap option_map]; constructor.
    unfold same_known. cbn [block_report].
    by apply same_known_reports, union_set_han.
Qed.

(** One inventory file, and an input text with a Han character, a letter
    and a digit. *)
Lemma run_analysis_all_chars_witness :
  ∃ r1 r2,
    run_analysis_from_files
      (λ p, if bool_decide (stem p = "in") then Some [0x7532; 0x61; 0x31]%Z
            else Some [0x7532; 0x4E59]%Z)
      [ {| stem := "a"; path_str := "a.txt" |} ]
      {| stem := "in"; path_str := "in.txt" |} false 15 true false = Some r1 ∧
    run_analysis_from_files
      (λ p, if bool_decide (stem p = "in") then Some [0x7532; 0x61; 0x31]%Z
            else Some [0x7532; 0x4E59]%Z)
      [ {| stem := "a"; path_str := "a.txt" |} ]
      {| stem := "in"; path_str := "in.txt" |} false 15 false false = Some r2 ∧
    r1.1.*1 = r2.1.*1.
Proof.
  eexists _, _. split; [reflexivity|]. split; [reflexivity|].
  eapply (run_analysis_all_chars
            (λ p, if bool_decide (stem p = "in")
                  then Some [0x7532; 0x61; 0x31]%Z
                  else Some [0x7532; 0x4E59]%Z)
            [ {| stem := "a"; path_str := "a.txt" |} ]
            {| stem := "in"; path_str := "in.txt" |} false 15 false);
    reflexivity.
Defined.

(** ** The wizard's questions *)

Lemma ask_no_default q c :
  ask q None c
  = (match stdin c with [] => [] | line :: _ => strip line end,
     {| stdin := tail (stdin c); stdout := stdout c ++ [q ++ lit ": "] |}).
Proof.
  unfold ask, input. destruct (stdin c) as [|line rest]; cbn [fst snd tail].
  - done.
  - by destruct (strip line).
Qed.

Lemma yesno_loop_step (lower : list Z → list Z) fuel (prompt : list Z)
    (default : bool) c :
  yesno_loop lower (S fuel) prompt default c
  = let asked :=
      ask (prompt ++ lit " (" ++ (if default then lit "Y/n" else lit "y/N")
           ++ lit ")") None c in
    match decides default (lower asked.1) with
    | Some b => Some (b, asked.2)
    | None =>
        yesno_loop lower fuel prompt default
          (print (lit "Please answer y or n.") asked.2)
    end.
Proof.
  cbn [yesno_loop]. cbv zeta. unfold decides.
  by repeat case_bool_decide.
Qed.

Lemma yesno_loop_spec (lower : list Z → list Z) (prompt : list Z)
    (default : bool) :
  lower [] = [] →
  ∀ lines out fuel, length lines < fuel →
  let p := (prompt ++ lit " (" ++ (if default then lit "Y/n" else lit "y/N")
            ++ lit ")") ++ lit ": " in
  let k := length (rejected lower default lines) in
  yesno_loop lower fuel prompt default {| stdin := lines; stdout := out |}
  = Some (from_option id default
            (head (drop k lines) ≫= λ l, decides default (lower (strip l))),
          {| stdin := drop (S k) lines;
             stdout := out
                       ++ concat (replicate k
                                    [p; lit "Please answer y or n." ++ [LF]])
                       ++ [p] |}).
Proof.
  intros Hnil. cbv zeta.
  induction lines as [|line lines IH]; intros out fuel Hfuel.
  - destruct fuel as [|fuel]; [simpl in Hfuel; lia|].
    rewrite yesno_loop_step. cbv zeta. rewrite ask_no_default.
    cbn [fst snd stdin stdout tail]. rewrite Hnil. done.
  - destruct fuel as [|fuel]; [simpl in Hfuel; lia|].
    rewrite yesno_loop_step. cbv zeta. rewrite ask_no_default.
    cbn [fst snd stdin stdout tail rejected].
    destruct (decides default (lower (strip line))) as [b|] eqn:Hd.
    + cbn [length replicate concat drop head mbind option_bind].
      rewrite Hd. cbn [from_option]. by rewrite drop_0.
    + unfold print. cbn [stdin stdout].
      rewrite IH by (simpl in Hfuel; lia).
      cbn [length replicate concat drop]. f_equal. f_equal. f_equal.
      rewrite <- !app_assoc. by cbn [app].
Qed.

(** [yesno] always returns.  It asks until a line of input, stripped and
    in lower case, is empty, y, yes, n or no, or until the input ends;
    its result is what that line decides (the default for the empty
    answer), or the default at the end of input.  It consumes the lines
    up to that one, and writes its prompt once per question and its
    reminder once per rejected line. *)
Theorem yesno_spec (lower : list Z → list Z) (prompt : list Z)
    (default : bool) (c : Console) :
  lower [] = [] →
  let p := (prompt ++ lit " (" ++ (if default then lit "Y/n" else lit "y/N")
            ++ lit ")") ++ lit ": " in
  let k := length (rejected lower default (stdin c)) in
  yesno lower prompt default c
  = Some (from_option id default
            (head (drop k (stdin c))
               ≫= λ l, decides default (lower (strip l))),
          {| stdin := drop (S k) (stdin c);
             stdout := stdout c
                       ++ concat (replicate k
                                    [p; lit "Please answer y or n." ++ [LF]])
                       ++ [p] |}).
Proof.
  intros Hnil. unfold yesno. destruct c as [lines out]. cbn [stdin stdout].
  apply yesno_loop_spec; [done|lia].
Qed.

(** The answers "maybe" and " YES ", with default no. *)
Lemma yesno_spec_witness :
  yesno ascii_lower (lit "Go?") false
    {| stdin := [lit "maybe"; lit " YES "; lit "n"]; stdout := [] |}
  = Some (true,
          {| stdin := [lit "n"];
             stdout := [lit "Go? (y/N): ";
                        lit "Please answer y or n." ++ [LF];
                        lit "Go? (y/N): "] |}).
Proof.
  rewrite (yesno_spec ascii_lower (lit "Go?") false _ eq_refl).
  vm_compute. reflexivity.
Defined.

(** ** Han-only counting *)

(** In Han-only mode the counted characters are exactly the Han
    characters of the text: no whitespace character lies in a Han range,
    so the whitespace test of [iter_text_chars] never drops anything
    there, and the report's total is the number of Han characters. *)
Theorem han_only_counts_han text inventory :
  iter_text_chars text true = filter (λ ch, is_han_cp ch = true) text ∧
  total_chars (coverage_report text inventory true)
  = length (filter (λ ch, is_han_cp ch = true) text) ∧
  (∀ ch, isspace ch = true → is_han_cp ch = false).
Proof.
  assert (Hiter : iter_text_chars text true
                  = filter (λ ch, is_han_cp ch = true) text).
  { induction text as [|ch text IH]; [done|].
    cbn [iter_text_chars andb]. rewrite filter_cons, IH.
    destruct (is_han_cp ch) eqn:Hhan; cbn [negb].
    - rewrite decide_True by done.
      rewrite bool_decide_eq_false_2; [done|].
      rewrite strip_single. intros Hsp.
      apply whitespace_not_han in Hsp. congruence.
    - by rewrite decide_False. }
  split; [done|]. split.
  - unfold coverage_report. cbn [total_chars]. by rewrite Hiter.
  - apply whitespace_not_han.
Qed.
